(** * pleated-slacks: the package.json parser (src/lib/parsePackage.js)

    A shallow embedding of [packageParser] and the properties of its
    methods.  The source file holds two variants of the module; where they
    differ the definitions carry the suffix [A] (first variant, lines
    1-205) or [B] (second variant, lines 206-380).

    JavaScript strings are modelled by [string]: a sequence of code units,
    here the code units below 256. *)

From Stdlib Require Import String Ascii List Bool Arith NArith Lia.
From Stdlib Require Import Permutation Sorted DecimalString.
Import ListNotations.
Local Open Scope string_scope.
Local Open Scope list_scope.

(** ** Exceptions and completions *)

(** A thrown value: an Error object with its [name] and [message]. *)
Record error := mkError { ename : string; emessage : string }.

Definition TypeError (m : string) : error := mkError "TypeError" m.
Definition ReferenceError (m : string) : error := mkError "ReferenceError" m.
Definition Error (m : string) : error := mkError "Error" m.

Definition is_empty (s : string) : bool :=
  match s with EmptyString => true | _ => false end.

(** [Error.prototype.toString], which a template literal [`${err}`] calls. *)
Definition error_toString (e : error) : string :=
  if is_empty (ename e) then emessage e
  else if is_empty (emessage e) then ename e
  else ename e ++ ": " ++ emessage e.

(** The completion of a synchronous call, or the settled state of a
    promise: a value, or a thrown value / rejection reason. *)
Inductive result (A : Type) : Type :=
| Ret (a : A)
| Throw (e : error).
Arguments Ret {A} a.
Arguments Throw {A} e.

Definition bind {A B} (r : result A) (k : A -> result B) : result B :=
  match r with
  | Ret a => k a
  | Throw e => Throw e
  end.

Notation "x <- r ;; k" := (bind r (fun x => k))
  (at level 61, r at next level, right associativity).

(** [try { body } catch (err) { handler(err) }] *)
Definition try_catch {A} (body : result A) (handler : error -> result A)
  : result A :=
  match body with
  | Ret a => Ret a
  | Throw e => handler e
  end.

(** ** Ordinary objects

    An object created by [{}] or by [JSON.parse]: its own properties in the
    order of their creation.  All values this program stores are strings or
    booleans, never functions or objects. *)

Definition jsobj (V : Type) : Type := list (string * V).

Definition own_keys {V} (o : jsobj V) : list string := map fst o.

Fixpoint mem (k : string) (l : list string) : bool :=
  match l with
  | [] => false
  | x :: l' => if String.eqb k x then true else mem k l'
  end.

(** [Object.prototype.hasOwnProperty.call(o, k)] *)
Definition has_own {V} (o : jsobj V) (k : string) : bool := mem k (own_keys o).

(** The method call [o.hasOwnProperty(k)].  The method is looked up on the
    object first: an own property of that name shadows the inherited
    method, and its value (a string or a boolean) is not callable. *)
Definition hasOwnProperty {V} (o : jsobj V) (k : string) : result bool :=
  if has_own o "hasOwnProperty"
  then Throw (TypeError "hasOwnProperty is not a function")
  else Ret (has_own o k).

Fixpoint upsert {V} (o : jsobj V) (k : string) (v : V) : jsobj V :=
  match o with
  | [] => [(k, v)]
  | (k', v') :: o' =>
      if String.eqb k k' then (k', v) :: o' else (k', v') :: upsert o' k v
  end.

(** The assignment [o[k] = v] for a primitive [v].  An existing property
    keeps its place; a new one is created last.  The key ["__proto__"]
    reaches the accessor of [Object.prototype], whose setter ignores a
    value that is neither an object nor null: no property is created. *)
Definition obj_set {V} (o : jsobj V) (k : string) (v : V) : jsobj V :=
  if String.eqb k "__proto__" then o else upsert o k v.

(** *** Array indices and the order of [Object.keys] *)

Definition is_digit (c : ascii) : bool :=
  let n := nat_of_ascii c in ((48 <=? n)%nat && (n <=? 57)%nat)%bool.

Fixpoint digits_value (s : string) (acc : N) : option N :=
  match s with
  | EmptyString => Some acc
  | String c s' =>
      if is_digit c
      then digits_value s' (10 * acc + N.of_nat (nat_of_ascii c - 48))%N
      else None
  end.

(** A property key is an array index when it is the canonical decimal
    numeral of an integer from 0 to 2^32 - 2. *)
Definition array_index (s : string) : option N :=
  match s with
  | EmptyString => None
  | String c s' =>
      if andb (Ascii.eqb c "0"%char) (negb (is_empty s')) then None
      else match digits_value s 0 with
           | Some n => if (n <? 4294967295)%N then Some n else None
           | None => None
           end
  end.

Definition is_index (s : string) : bool :=
  match array_index s with Some _ => true | None => false end.

Definition index_value (s : string) : N :=
  match array_index s with Some n => n | None => 0%N end.

Fixpoint insert_index (k : string) (l : list string) : list string :=
  match l with
  | [] => [k]
  | x :: l' =>
      if (index_value k <=? index_value x)%N then k :: l
      else x :: insert_index k l'
  end.

Definition sort_indices (l : list string) : list string :=
  fold_right insert_index [] l.

(** The order of own property keys of an ordinary object: the array
    indices in ascending numeric order, then the other keys in the order
    of their creation. *)
Definition key_order (ks : list string) : list string :=
  sort_indices (filter is_index ks) ++ filter (fun k => negb (is_index k)) ks.

(** [Object.keys(o)] for an object [o]. *)
Definition Object_keys {V} (o : jsobj V) : list string :=
  key_order (own_keys o).

(** [Object.keys(x)] where [x] is the value of a property that may be
    absent ([undefined]). *)
Definition Object_keys_of {V} (x : option (jsobj V)) : result (list string) :=
  match x with
  | Some o => Ret (Object_keys o)
  | None => Throw (TypeError "Cannot convert undefined or null to object")
  end.

(** ** The manifest reader *)

(** What the program reads of a parsed package.json: the two mappings,
    each absent ([None], the property reads as [undefined]) or an object
    from names to version specifiers.  A manifest that holds another JSON
    value in their place is the subject of [dependencies_any] below. *)
Record package_json := {
  pj_dependencies : option (jsobj string);
  pj_devDependencies : option (jsobj string)
}.

Section ManifestReader.
(** [fs.readFileSync(path, 'utf8')] and [JSON.parse] on a manifest. *)
Variable readFileSync : string -> result string.
Variable JSON_parse_manifest : string -> result package_json.

(** [packageParser.dependencies], the same in both variants. *)
Definition dependencies (path_to_pkg : string) : result (list string) :=
  text <- readFileSync path_to_pkg ;;
  pj <- JSON_parse_manifest text ;;
  deps <- Object_keys_of (pj_dependencies pj) ;;
  devs <- Object_keys_of (pj_devDependencies pj) ;;
  Ret (deps ++ devs).
End ManifestReader.

(** ** The URL builder *)

Definition npm_prefix : string := "https://www.npmjs.com/package/".

(** [packageParser.depURL], the same in both variants. *)
Definition depURL (pkg : string) : string := npm_prefix ++ pkg.

(** ** The page scraper *)

(** *** Regular expressions

    The fragment of the regular expression language that the scraper's
    pattern uses, matched the way the language defines it: by backtracking,
    a star taking as many characters as it can first. *)
Inductive regex :=
| Class (p : ascii -> bool)
| Star (p : ascii -> bool)
| Cat (r1 r2 : regex)
| Group (r : regex).

(** The result of a match: the rest of the subject and the captures. *)
Definition match_state : Type := string * list string.

Fixpoint star_match (p : ascii -> bool) (s : string)
    (k : string -> option match_state) : option match_state :=
  match s with
  | EmptyString => k s
  | String c s' =>
      if p c
      then match star_match p s' k with
           | Some m => Some m
           | None => k s
           end
      else k s
  end.

Fixpoint take (n : nat) (s : string) : string :=
  match n, s with
  | S n', String c s' => String c (take n' s')
  | _, _ => EmptyString
  end.

(** The part of [s] that was consumed when [rest] is left of it. *)
Definition consumed (s rest : string) : string :=
  take (String.length s - String.length rest) s.

Fixpoint rmatch (r : regex) (s : string) (caps : list string)
    (k : string -> list string -> option match_state) : option match_state :=
  match r with
  | Class p =>
      match s with
      | String c s' => if p c then k s' caps else None
      | EmptyString => None
      end
  | Star p => star_match p s (fun s' => k s' caps)
  | Cat r1 r2 => rmatch r1 s caps (fun s1 c1 => rmatch r2 s1 c1 k)
  | Group r1 => rmatch r1 s caps (fun s1 c1 => k s1 (c1 ++ [consumed s s1]))
  end.

(** A match of [r] that starts at the first character of [s]. *)
Definition exec_at (r : regex) (s : string) : option match_state :=
  rmatch r s [] (fun rest caps => Some (rest, caps)).

(** The replacement pattern ['$1']: the first capture. *)
Definition dollar1 (caps : list string) : string := nth 0 caps "".

(** [s.replace(r, '$1')] for a pattern [r] with the flag [g]: every match,
    found from left to right, is replaced; the search goes on after the
    match, one character further when the match was empty. *)
Fixpoint replace_from (fuel : nat) (r : regex) (s : string) : string :=
  match fuel with
  | O => s
  | S fuel' =>
      match exec_at r s with
      | Some (rest, caps) =>
          if (String.length rest <? String.length s)%nat
          then dollar1 caps ++ replace_from fuel' r rest
          else dollar1 caps ++
               match s with
               | EmptyString => EmptyString
               | String c s' => String c (replace_from fuel' r s')
               end
      | None =>
          match s with
          | EmptyString => EmptyString
          | String c s' => String c (replace_from fuel' r s')
          end
      end
  end.

Definition replace_all (r : regex) (s : string) : string :=
  replace_from (S (String.length s)) r s.

(** [\s]: tab, line feed, vertical tab, form feed, carriage return, space
    and no-break space. *)
Definition white_space (c : ascii) : bool :=
  let n := nat_of_ascii c in
  (((9 <=? n)%nat && (n <=? 13)%nat) || (n =? 32)%nat || (n =? 160)%nat)%bool.

(** [\S] *)
Definition non_space (c : ascii) : bool := negb (white_space c).

(** [.]: any character but a line terminator. *)
Definition dot (c : ascii) : bool :=
  let n := nat_of_ascii c in negb ((n =? 10)%nat || (n =? 13)%nat)%bool.

(** The pattern [/\s*(\S.*\S)\s*/]. *)
Definition keyword_pattern : regex :=
  Cat (Star white_space)
      (Cat (Group (Cat (Class non_space) (Cat (Star dot) (Class non_space))))
           (Star white_space)).

(** [s.split(',')] *)
Fixpoint split_comma (s : string) : list string :=
  match s with
  | EmptyString => [EmptyString]
  | String c s' =>
      if Ascii.eqb c ","%char then EmptyString :: split_comma s'
      else match split_comma s' with
           | tok :: toks => String c tok :: toks
           | [] => [String c EmptyString]
           end
  end.

Definition sidebar_selector : string :=
  ".sidebar>p.list-of-links:first-of-type".

Section Scraper.
(** [cheerio.load(html)(selector)]: the selection, given by the text
    content of each element it holds, in document order. *)
Variable cheerio_select : string -> string -> list string.

(** [.text()]: the text contents of the selected elements, joined. *)
Definition selection_text (sel : list string) : string :=
  String.concat "" sel.

(** [packageParser.parseDependencies], the same in both variants. *)
Definition parseDependencies (html : string) : list string :=
  let deps := split_comma (selection_text (cheerio_select html sidebar_selector)) in
  map (fun el => replace_all keyword_pattern el) deps.
End Scraper.

(** ** The catalog parser *)

(** What the program reads of the parsed catalog: the [results] sequence
    and, of each entry, its [name] and [description]. *)
Record docker_entry := { name : string; description : string }.
Record docker_json := { results : list docker_entry }.

Section CatalogParser.
Variable JSON_parse_catalog : string -> result docker_json.

(** [packageParser.parseDockers], the same in both variants. *)
Definition parseDockers (dockerJSON : string) : result (jsobj string) :=
  dj <- JSON_parse_catalog dockerJSON ;;
  Ret (fold_left (fun dockers el => obj_set dockers (name el) (description el))
                 (results dj) []).
End CatalogParser.

(** ** Promises and the network *)

(** A promise, by what becomes of it: the time at which it settles and
    the state it settles in. *)
Definition promise (A : Type) : Type := (nat * result A)%type.

Definition settled_at {A} (p : promise A) : nat := fst p.
(** [await p] inside an async function. *)
Definition await {A} (p : promise A) : result A := snd p.

(** The URLs requested so far, in the order of the requests. *)
Definition network : Type := list string.

(** The earliest rejection among the promises of an array; of two that
    settle together, the one that comes first in the array. *)
Fixpoint first_rejection (ps : list (nat * option error)) : option (nat * error) :=
  match ps with
  | [] => None
  | (t, Some e) :: ps' =>
      match first_rejection ps' with
      | Some (t', e') => if (t' <? t)%nat then Some (t', e') else Some (t, e)
      | None => Some (t, e)
      end
  | (_, None) :: ps' => first_rejection ps'
  end.

Definition status {A} (p : promise A) : nat * option error :=
  match p with
  | (t, Ret _) => (t, None)
  | (t, Throw e) => (t, Some e)
  end.

Fixpoint all_values {A} (ps : list (promise A)) : result (list A) :=
  match ps with
  | [] => Ret []
  | p :: ps' => a <- await p ;; l <- all_values ps' ;; Ret (a :: l)
  end.

(** [Promise.all(ps)]: rejected as soon as one of [ps] is, with that
    reason; fulfilled with all the values, in the order of the array, once
    all of [ps] are. *)
Definition Promise_all {A} (ps : list (promise A)) : promise (list A) :=
  match first_rejection (map status ps) with
  | Some (t, e) => (t, Throw e)
  | None => (fold_right Nat.max 0 (map settled_at ps), all_values ps)
  end.

(** [Promise.all] of an array whose first element is [p] and whose other
    elements are [ps]; the result is given as its first element and the
    rest, which is how variant B takes it apart with [shift()]. *)
Definition Promise_all_cons {A B} (p : promise A) (ps : list (promise B))
  : promise (A * list B) :=
  match first_rejection (status p :: map status ps) with
  | Some (t, e) => (t, Throw e)
  | None =>
      (Nat.max (settled_at p) (fold_right Nat.max 0 (map settled_at ps)),
       a <- await p ;; l <- all_values ps ;; Ret (a, l))
  end.

(** ** The parser object

    The methods that [matchDependencies] reaches through [this]; a test
    replaces some of them by stubs. *)
Record parser := {
  this_dependencies : string -> result (list string);
  this_depURL : string -> string;
  this_fetchNPM : string -> network -> promise (list string) * network;
  this_fetchDockers : option string -> network -> promise (jsobj string) * network
}.

Definition ERR_URL : string := "Couldn't complete URL request".
Definition ERR_URL_PARSE : string :=
  "Couldn't load or parse data on this module from npmjs.com".
Definition ERR_NO_PKG : string := "Unable find package on NPM".

Definition docker_default_url : string :=
  "https://hub.docker.com/v2/repositories/library/?page_size=999".

(** [url || default]: the default replaces an absent or empty [url]. *)
Definition or_default (url : option string) (default : string) : string :=
  match url with
  | Some u => if is_empty u then default else u
  | None => default
  end.

(** [new Error(`${ERR_URL_PARSE} ${err}`)] *)
Definition wrap_error (err : error) : error :=
  Error (ERR_URL_PARSE ++ " " ++ error_toString err).

Section Fetchers.
(** What the network answers to a GET of a URL. *)
Variable responses : string -> promise string.

(** [request(url)]: the request is sent when the call is made. *)
Definition request (url : string) (net : network) : promise string * network :=
  (responses url, net ++ [url]).

(** The parsing methods that the fetchers of variant B call:
    [this.parseDependencies] and [this.parseDockers]. *)
Variable parseDependencies_m : string -> list string.
Variable parseDockers_m : string -> result (jsobj string).

(** Variant B, [fetchNPM]. *)
Definition fetchNPM_B (depURL : string) (net : network)
  : promise (list string) * network :=
  let (npmPage, net') := request depURL net in
  ((settled_at npmPage,
    page <- await npmPage ;; Ret (parseDependencies_m page)), net').

(** Variant B, [fetchDockers]. *)
Definition fetchDockers_B (url : option string) (net : network)
  : promise (jsobj string) * network :=
  let dockerURL := or_default url docker_default_url in
  let (dockers, net') := request dockerURL net in
  ((settled_at dockers,
    body <- await dockers ;; parseDockers_m body), net').

End Fetchers.

(** ** The matcher *)

(** What [matchDependencies] resolves to: an array of names, or an object
    from names to [true]. *)
Inductive match_result :=
| Arr (names : list string)
| Obj (o : jsobj bool).

(** [urls.forEach(url => promises.push(fetch(url)))]: the fetches are
    started one after the other, none is awaited. *)
Fixpoint fetch_each {A} (fetch : string -> network -> promise A * network)
    (urls : list string) (net : network) : list (promise A) * network :=
  match urls with
  | [] => ([], net)
  | url :: urls' =>
      let (p, net1) := fetch url net in
      let (ps, net2) := fetch_each fetch urls' net1 in
      (p :: ps, net2)
  end.

(** The body of the loop over the keywords:
    [if (!depList.hasOwnProperty(kw) && dockers.hasOwnProperty(kw))
       depList[kw] = true]. *)
Definition match_keyword (dockers : jsobj string) (depList : jsobj bool)
    (kw : string) : result (jsobj bool) :=
  seen <- hasOwnProperty depList kw ;;
  if negb seen
  then official <- hasOwnProperty dockers kw ;;
       if official then Ret (obj_set depList kw true) else Ret depList
  else Ret depList.

(** [depKeywords.forEach(kw => ...)], from the empty [depList]. *)
Definition match_keywords (dockers : jsobj string) (depKeywords : list string)
  : result (jsobj bool) :=
  fold_left (fun acc kw => depList <- acc ;; match_keyword dockers depList kw)
            depKeywords (Ret []).

(** [fetchedData.reduce((accum, el) => accum.concat(el), [])] *)
Definition flatten (fetchedData : list (list string)) : list string :=
  fold_left (fun accum el => accum ++ el) fetchedData [].

(** Variant B, [matchDependencies]: the state in which the returned
    promise settles, and the requests made.  The calls of [console.log]
    are left out. *)
Definition matchDependenciesB (this : parser) (path_to_pkg : string)
    (net : network) : result match_result * network :=
  match this_dependencies this path_to_pkg with
  | Throw e => (Throw e, net)
  | Ret packageJSON =>
      let packageURLs := map (this_depURL this) packageJSON in
      let (dockerPromise, net1) := this_fetchDockers this None net in
      let (depPromises, net2) :=
        fetch_each (this_fetchNPM this) packageURLs net1 in
      (fetchedData <- await (Promise_all_cons dockerPromise depPromises) ;;
       let dockerKeywords := fst fetchedData in
       let depKeywords := flatten (snd fetchedData) in
       depList <- match_keywords dockerKeywords depKeywords ;;
       Ret (Arr (Object_keys depList)),
       net2)
  end.

(** *** Variant A and the scope of [dockerPromises] *)

(** The identifiers declared at the top of the module of variant A. *)
Definition module_scope_A : list string :=
  ["fs"; "request"; "cheerio"; "Promise"; "ERR_URL"; "ERR_URL_PARSE";
   "fetchURL"; "packageParser"].

(** The identifiers declared in the body of [matchDependencies] outside
    any inner block.  [dockerPromises] is not among them: it is a [const]
    of the block of the first [try]. *)
Definition function_scope_A : list string :=
  ["path_to_pkg"; "packageJSON"; "packageURLs"; "depPromises";
   "depKeywords"; "depList"].

(** The evaluation of an identifier in a chain of scopes. *)
Definition resolve (scopes : list (list string)) (x : string) : result unit :=
  if existsb (mem x) scopes then Ret tt
  else Throw (ReferenceError (x ++ " is not defined")).

(** The value of [this] in the arrow functions of variant A.  An arrow
    function has the [this] of the code around it, here the top level of
    an ES module, where it is [undefined]; calling the function as a
    method of [packageParser] does not bind it. *)
Definition module_this_A : option parser := None.

(** The object of which [this.m] reads the property [m]: reading a
    property of [undefined] throws. *)
Definition this_object (this : option parser) (m : string) : result parser :=
  match this with
  | Some object => Ret object
  | None =>
      Throw (TypeError
               ("Cannot read properties of undefined (reading '" ++ m ++ "')"))
  end.

(** Variant A, [matchDependencies], read as
    [packageParser.matchDependencies = async path_to_pkg => {...}]: the
    state in which the returned promise settles, and the requests made.

    The first statement reads [this.dependencies]; the statements after it
    use the same [this].  The first [then] starts [Promise.each] and does
    not return its promise; the second evaluates [dockerPromises.then(...)]
    where the scopes are those of the callback, the function and the
    module.  Were the identifier bound, its value would be the awaited
    catalog, which has no method [then]. *)
Definition matchDependenciesA (path_to_pkg : string) (net : network)
  : result match_result * network :=
  match this_object module_this_A "dependencies" with
  | Throw e => (Throw e, net)
  | Ret this =>
      match this_dependencies this path_to_pkg with
      | Throw e => (Throw e, net)
      | Ret packageJSON =>
          let packageURLs := map (this_depURL this) packageJSON in
          let depList : jsobj bool := [] in
          let (depPromises, net1) :=
            fetch_each (this_fetchNPM this) packageURLs net in
          let (dockerPromise, net2) := this_fetchDockers this None net1 in
          (_ <- try_catch (dockerPromises <- await dockerPromise ;; Ret tt)
                          (fun err => Throw (wrap_error err)) ;;
           try_catch
             (_ <- await (Promise_all depPromises) ;;
              _ <- (_ <- resolve [[]; function_scope_A; module_scope_A]
                                 "dockerPromises" ;;
                    Throw (TypeError "dockerPromises.then is not a function")
                      : result unit) ;;
              Ret (Arr (Object_keys depList)))
             (fun err => Throw (wrap_error err)),
           net2)
      end
  end.

(** ** The parser object of variant B *)

Section PackageParser.
Variable readFileSync : string -> result string.
Variable JSON_parse_manifest : string -> result package_json.
Variable JSON_parse_catalog : string -> result docker_json.
Variable cheerio_select : string -> string -> list string.
Variable responses : string -> promise string.

Definition packageParserB : parser := {|
  this_dependencies := dependencies readFileSync JSON_parse_manifest;
  this_depURL := depURL;
  this_fetchNPM :=
    fetchNPM_B responses (parseDependencies cheerio_select);
  this_fetchDockers :=
    fetchDockers_B responses (parseDockers JSON_parse_catalog)
|}.
End PackageParser.

(** ** Definitions used in the statements

    Auxiliary functions, the specification of the match, the fixtures and
    stubs of the test suite, and the inputs of the examples. *)

Fixpoint strip_prefix (p s : string) : option string :=
  match p, s with
  | EmptyString, _ => Some s
  | String a p', String b s' =>
      if Ascii.eqb a b then strip_prefix p' s' else None
  | String _ _, EmptyString => None
  end.

Definition index_le (a b : string) : Prop :=
  (index_value a <= index_value b)%N.

(** The manifest of the test suite's fixture, as far as its expected key
    list tells. *)
Definition package_test : package_json := {|
  pj_dependencies := Some [("mongoose", "*"); ("redis", "*"); ("express", "*");
                           ("q", "*"); ("sequelize", "*"); ("ghost", "*");
                           ("cradle", "*"); ("node-solr-smart-client", "*")];
  pj_devDependencies := Some [("expect", "*"); ("mocha", "*"); ("consul", "*")]
|}.

(** The fixtures of the test suite. *)
Definition targetDeps : list string :=
  ["mongoose"; "redis"; "express"; "q"; "sequelize"; "ghost"; "cradle";
   "node-solr-smart-client"; "expect"; "mocha"; "consul"].

Definition targetKeywords : list string :=
  ["object relational mapper"; "nodejs"; "orm"; "mssql"; "postgres";
   "postgresql"; "sqlite"; "mysql"].

(** The value of the own property [k] of [o]. *)
Fixpoint get {V} (o : jsobj V) (k : string) : option V :=
  match o with
  | [] => None
  | (k', v) :: o' => if String.eqb k k' then Some v else get o' k
  end.

(** The loop of [parseDockers], from any [dockers] built so far. *)
Definition add_entries (entries : list docker_entry) (dockers : jsobj string)
  : jsobj string :=
  fold_left (fun dockers el => obj_set dockers (name el) (description el))
            entries dockers.

(** Catalog entries of the examples. *)
Definition nginx_old : docker_entry :=
  {| name := "nginx"; description := "An older description." |}.

Definition nginx : docker_entry :=
  {| name := "nginx"; description := "Official build of Nginx." |}.

Definition redis : docker_entry :=
  {| name := "redis"; description := "Redis is an open source key-value store." |}.

(** A parser whose methods [dependencies], [fetchDockers] and [fetchNPM] are
    replaced by stubs, as the test suite does: they make no request. *)
Definition stub_parser (deps : result (list string))
    (dockers : promise (jsobj string))
    (keywords : string -> promise (list string)) : parser := {|
  this_dependencies := fun _ => deps;
  this_depURL := depURL;
  this_fetchNPM := fun url net => (keywords url, net);
  this_fetchDockers := fun _ net => (dockers, net)
|}.

(** [Promise.resolve(v)] *)
Definition Promise_resolve {A} (v : A) : promise A := (0, Ret v).

Definition targetDocker : jsobj string :=
  [("busybox", "Busybox base image.");
   ("mongo", "MongoDB document databases provide high availability and easy scalability.");
   ("mysql", "MySQL is a widely used, open-source relational database management system (RDBMS).");
   ("nginx", "Official build of Nginx.");
   ("node", "Node.js is a JavaScript-based platform for server-side and networking applications.");
   ("postgres", "The PostgreSQL object-relational database system provides reliability and data integrity.");
   ("redis", "Redis is an open source key-value store that functions as a data structure server.");
   ("registry", "Containerized docker registry");
   ("swarm", "Swarm: a Docker-native clustering system.");
   ("ubuntu", "Ubuntu is a Debian-based Linux operating system based on free software.")].

Definition targetFinal : jsobj bool :=
  [("redis", true); ("node", true); ("postgres", true); ("mysql", true);
   ("ghost", true); ("couchdb", true); ("solr", true); ("consul", true)].

(** The parser as the test of the matcher stubs it. *)
Definition test_parser : parser :=
  stub_parser (Ret targetDeps) (Promise_resolve targetDocker)
              (fun _ => Promise_resolve targetKeywords).

(** An error that carries the text of another one after some context. *)
Definition wraps (outer inner : error) : Prop :=
  exists context : string,
    context <> "" /\
    emessage outer = (context ++ error_toString inner)%string.

(** A run of the real parser of variant B: two dependencies, of which the
    page of the second one cannot be fetched. *)
Definition failing_responses (url : string) : promise string :=
  if String.eqb url (depURL "redis") then (3, Throw (Error "ETIMEDOUT"))
  else (5, Ret "<html></html>").

Definition failing_parser : parser :=
  packageParserB
    (fun _ => Ret "{}")
    (fun _ => Ret {| pj_dependencies := Some [("express", "*")];
                     pj_devDependencies := Some [("redis", "*")] |})
    (fun _ => Ret {| results := [nginx; redis] |})
    (fun _ _ => ["redis, cache"])
    failing_responses.

(** The keys of [l] without repetition, each where it occurs first, and
    without those already [seen]. *)
Fixpoint dedup_seen (seen l : list string) : list string :=
  match l with
  | [] => []
  | k :: l' =>
      if mem k seen then dedup_seen seen l'
      else k :: dedup_seen (seen ++ [k]) l'
  end.

Definition dedup (l : list string) : list string := dedup_seen [] l.

(** The match as the specification words it: the keywords that are names
    of the catalog, each once, where it occurs first. *)
Definition matched_keywords (catalog : jsobj string) (kws : list string)
  : list string :=
  dedup (filter (has_own catalog) kws).

(** A keyword is kept when the catalog has it and it is not
    ["__proto__"], which no assignment makes a property of [depList]. *)
Definition kept (dockers : jsobj string) (kw : string) : bool :=
  has_own dockers kw && negb (String.eqb kw "__proto__").

(** Two dependencies whose pages share keywords. *)
Definition two_pages_parser : parser :=
  stub_parser (Ret ["sequelize"; "connect-redis"])
    (Promise_resolve targetDocker)
    (fun url =>
       if String.eqb url (depURL "sequelize")
       then Promise_resolve ["orm"; "postgres"; "mysql"; "postgres"]
       else Promise_resolve ["redis"; "session"; "mysql"]).

(** Classes of characters over a whole string. *)
Fixpoint all_chars (p : ascii -> bool) (s : string) : bool :=
  match s with
  | EmptyString => true
  | String c s' => p c && all_chars p s'
  end.

(** Does [s] start with a character of the class [p]? *)
Definition starts_with (p : ascii -> bool) (s : string) : bool :=
  match s with
  | EmptyString => false
  | String c _ => p c
  end.

Fixpoint count_chars (p : ascii -> bool) (s : string) : nat :=
  match s with
  | EmptyString => 0
  | String c s' => (if p c then 1 else 0) + count_chars p s'
  end.

(** [t] is [s] with some white-space characters deleted. *)
Inductive deletes_white_space : string -> string -> Prop :=
| dws_end : deletes_white_space "" ""
| dws_keep (c : ascii) (s t : string) :
    deletes_white_space s t -> deletes_white_space (String c s) (String c t)
| dws_drop (c : ascii) (s t : string) :
    white_space c = true ->
    deletes_white_space s t -> deletes_white_space (String c s) t.

Definition is_comma (c : ascii) : bool := Ascii.eqb c ","%char.

(** A catalog that has an entry named [hasOwnProperty]. *)
Definition shadowing_parser : parser :=
  stub_parser (Ret ["express"])
    (Promise_resolve [("hasOwnProperty", "Not an image."); ("redis", "Redis.")])
    (fun _ => Promise_resolve ["web"; "redis"]).

(** A manifest with no dependency, against the same catalog. *)
Definition no_dependency_parser : parser :=
  stub_parser (Ret [])
    (Promise_resolve [("hasOwnProperty", "Not an image."); ("redis", "Redis.")])
    (fun _ => Promise_resolve ["web"; "redis"]).

(** *** The manifest as any JSON value *)

(** A value that [JSON.parse] returns.  Of a number only the numeral is
    kept: the program does no arithmetic. *)
#[warnings="-register-all"]
Inductive json :=
| JNull
| JBool (b : bool)
| JNumber (numeral : string)
| JString (s : string)
| JArray (items : list json)
| JObject (members : jsobj json).

(** [v.k] for a name [k] that no prototype defines and that is neither an
    index nor [length], as [dependencies] and [devDependencies] are: the
    own property of an object, [undefined] ([None]) on a boolean, a number,
    a string or an array; on [null] the read throws. *)
Definition member (v : json) (k : string) : result (option json) :=
  match v with
  | JNull =>
      Throw (TypeError
               ("Cannot read properties of null (reading '" ++ k ++ "')"))
  | JObject members => Ret (get members k)
  | _ => Ret None
  end.

(** The keys ["0"], ["1"], ... of the [n] elements of a string or of an
    array. *)
Definition indices (n : nat) : list string :=
  map (fun i => NilZero.string_of_uint (Nat.to_uint i)) (seq 0 n).

(** [Object.keys(x)] for any [x]: it throws on [undefined] and on [null]
    only; a boolean and a number have no own key, a string and an array
    have their indices. *)
Definition Object_keys_any (x : option json) : result (list string) :=
  match x with
  | None | Some JNull =>
      Throw (TypeError "Cannot convert undefined or null to object")
  | Some (JBool _) | Some (JNumber _) => Ret []
  | Some (JString s) => Ret (indices (String.length s))
  | Some (JArray items) => Ret (indices (List.length items))
  | Some (JObject members) => Ret (Object_keys members)
  end.

Section ManifestReaderAny.
Variable readFileSync : string -> result string.
Variable JSON_parse : string -> result json.

(** [packageParser.dependencies] on a manifest that is any JSON value. *)
Definition dependencies_any (path_to_pkg : string) : result (list string) :=
  text <- readFileSync path_to_pkg ;;
  pj <- JSON_parse text ;;
  d <- member pj "dependencies" ;;
  deps <- Object_keys_any d ;;
  dd <- member pj "devDependencies" ;;
  devs <- Object_keys_any dd ;;
  Ret (deps ++ devs).
End ManifestReaderAny.

(** A manifest of the kind [package_json] describes, as a JSON value. *)
Definition json_of_mapping (o : jsobj string) : json :=
  JObject (map (fun kv => (fst kv, JString (snd kv))) o).

Definition json_of_manifest (pj : package_json) : json :=
  JObject
    (match pj_dependencies pj with
     | Some d => [("dependencies", json_of_mapping d)]
     | None => []
     end ++
     match pj_devDependencies pj with
     | Some dd => [("devDependencies", json_of_mapping dd)]
     | None => []
     end).

(** * Properties *)

(** ** Strings *)

Lemma strip_prefix_app (p s : string) : strip_prefix p (p ++ s) = Some s.
Proof.
  induction p as [|a p IH]; simpl; [reflexivity|].
  now rewrite Ascii.eqb_refl.
Qed.

Lemma mem_In (k : string) (l : list string) : mem k l = true <-> In k l.
Proof.
  induction l as [|x l IH]; simpl.
  - split; [discriminate | tauto].
  - destruct (String.eqb_spec k x) as [->|Hne].
    + tauto.
    + rewrite IH. split; [tauto|]. intros [H|H]; [congruence | exact H].
Qed.

Lemma mem_false_In (k : string) (l : list string) :
  mem k l = false <-> ~ In k l.
Proof.
  rewrite <- mem_In. destruct (mem k l); split; congruence.
Qed.

Lemma mem_app (k : string) (l1 l2 : list string) :
  mem k (l1 ++ l2) = mem k l1 || mem k l2.
Proof.
  induction l1 as [|x l1 IH]; simpl; [reflexivity|].
  destruct (String.eqb k x); [reflexivity | exact IH].
Qed.

Lemma length_append (s1 s2 : string) :
  String.length (s1 ++ s2)%string = String.length s1 + String.length s2.
Proof. induction s1; simpl; congruence. Qed.

(** ** The URL builder *)

(** C10: [depURL] is injective, distinct package names give distinct URLs,
    and the name is what follows the prefix
    ["https://www.npmjs.com/package/"] in the URL. *)
Theorem depURL_injective (a b : string) :
  a <> b ->
  depURL a <> depURL b /\
  strip_prefix "https://www.npmjs.com/package/" (depURL a) = Some a /\
  strip_prefix "https://www.npmjs.com/package/" (depURL b) = Some b.
Proof.
  intros Hne.
  assert (Hs : forall x, strip_prefix npm_prefix (depURL x) = Some x)
    by (intro x; apply strip_prefix_app).
  split; [|split; apply Hs].
  intros Heq. apply Hne.
  pose proof (Hs a) as Ha. rewrite Heq, Hs in Ha. congruence.
Qed.

Lemma depURL_injective_witness :
  depURL "express" <> depURL "redis" /\
  strip_prefix "https://www.npmjs.com/package/" (depURL "express")
    = Some "express" /\
  strip_prefix "https://www.npmjs.com/package/" (depURL "redis")
    = Some "redis".
Proof.
  apply (depURL_injective "express" "redis"). discriminate.
Defined.

Lemma depURL_express :
  depURL "express" = "https://www.npmjs.com/package/express".
Proof. reflexivity. Qed.

(** ** The order of [Object.keys] *)

Lemma insert_index_perm (k : string) (l : list string) :
  Permutation (insert_index k l) (k :: l).
Proof.
  induction l as [|x l IH]; simpl; [reflexivity|].
  destruct (index_value k <=? index_value x)%N; [reflexivity|].
  rewrite IH. apply perm_swap.
Qed.

Lemma sort_indices_perm (l : list string) : Permutation (sort_indices l) l.
Proof.
  induction l as [|x l IH]; simpl; [reflexivity|].
  rewrite insert_index_perm. now constructor.
Qed.

Lemma insert_index_sorted (k : string) (l : list string) :
  Sorted index_le l -> Sorted index_le (insert_index k l).
Proof.
  induction l as [|x l IH]; simpl; intros Hs.
  - repeat constructor.
  - destruct (N.leb_spec (index_value k) (index_value x)) as [Hle|Hlt].
    + constructor; [exact Hs | constructor; exact Hle].
    + inversion Hs as [|? ? Hs' Hhd]; subst.
      constructor; [apply IH; exact Hs'|].
      destruct l as [|y l]; simpl.
      * constructor. unfold index_le. lia.
      * destruct (N.leb_spec (index_value k) (index_value y)).
        -- constructor. unfold index_le. lia.
        -- constructor. inversion Hhd; subst. assumption.
Qed.

Lemma sort_indices_sorted (l : list string) : Sorted index_le (sort_indices l).
Proof.
  induction l as [|x l IH]; simpl; [constructor|].
  now apply insert_index_sorted.
Qed.

Lemma filter_partition_perm {A} (f : A -> bool) (l : list A) :
  Permutation (filter f l ++ filter (fun x => negb (f x)) l) l.
Proof.
  induction l as [|x l IH]; simpl; [reflexivity|].
  destruct (f x); simpl.
  - now constructor.
  - rewrite <- Permutation_middle. now constructor.
Qed.

(** [Object.keys] gives every own key once for each time the object has it:
    nothing is dropped and nothing is added. *)
Lemma key_order_perm (ks : list string) : Permutation (key_order ks) ks.
Proof.
  unfold key_order. rewrite sort_indices_perm. apply filter_partition_perm.
Qed.

Lemma filter_all {A} (f : A -> bool) (l : list A) :
  forallb f l = true -> filter f l = l.
Proof.
  induction l as [|x l IH]; simpl; [reflexivity|].
  intros H. apply andb_true_iff in H as [Hx Hl].
  rewrite Hx. now rewrite IH.
Qed.

Lemma filter_none {A} (f : A -> bool) (l : list A) :
  forallb (fun x => negb (f x)) l = true -> filter f l = [].
Proof.
  induction l as [|x l IH]; simpl; [reflexivity|].
  intros H. apply andb_true_iff in H as [Hx Hl].
  apply negb_true_iff in Hx. rewrite Hx. now apply IH.
Qed.

(** Keys of which none is an array index come in the order of creation. *)
Lemma key_order_no_index (ks : list string) :
  forallb (fun k => negb (is_index k)) ks = true -> key_order ks = ks.
Proof.
  intros H. unfold key_order.
  rewrite (filter_none _ _ H). simpl. now apply filter_all.
Qed.

Lemma key_order_In (k : string) (ks : list string) :
  In k (key_order ks) <-> In k ks.
Proof.
  split; apply Permutation_in;
    [apply key_order_perm | symmetry; apply key_order_perm].
Qed.

Lemma key_order_NoDup (ks : list string) : NoDup ks -> NoDup (key_order ks).
Proof.
  intros H. eapply Permutation_NoDup; [symmetry; apply key_order_perm | exact H].
Qed.

(** ** The manifest reader *)

(** C4, as the code has it: for a manifest with both mappings,
    [dependencies] returns the keys of [dependencies] followed by the keys
    of [devDependencies], each group as [Object.keys] orders it (every key
    of the mapping, none dropped across the two groups); when no key is an
    array index that is the order of insertion, unchanged. *)
Theorem dependencies_keys
    (readFileSync : string -> result string)
    (JSON_parse_manifest : string -> result package_json)
    (path text : string) (pj : package_json) (d dd : jsobj string) :
  readFileSync path = Ret text ->
  JSON_parse_manifest text = Ret pj ->
  pj_dependencies pj = Some d ->
  pj_devDependencies pj = Some dd ->
  dependencies readFileSync JSON_parse_manifest path
    = Ret (Object_keys d ++ Object_keys dd) /\
  Permutation (Object_keys d) (own_keys d) /\
  Permutation (Object_keys dd) (own_keys dd) /\
  (forallb (fun k => negb (is_index k)) (own_keys d ++ own_keys dd) = true ->
   dependencies readFileSync JSON_parse_manifest path
     = Ret (own_keys d ++ own_keys dd)).
Proof.
  intros Hread Hparse Hd Hdd.
  assert (Heq : dependencies readFileSync JSON_parse_manifest path
                = Ret (Object_keys d ++ Object_keys dd)).
  { unfold dependencies. rewrite Hread; simpl. rewrite Hparse; simpl.
    rewrite Hd, Hdd. reflexivity. }
  split; [exact Heq|].
  split; [apply key_order_perm|].
  split; [apply key_order_perm|].
  intros Hno. rewrite Heq.
  rewrite forallb_app in Hno. apply andb_true_iff in Hno as [H1 H2].
  unfold Object_keys. now rewrite !key_order_no_index.
Qed.

Lemma dependencies_keys_witness :
  let rf := fun _ : string => Ret "{}" in
  let jp := fun _ : string => Ret package_test in
  dependencies rf jp "./test/fixtures/package-test.json" = Ret targetDeps.
Proof.
  intros rf jp.
  refine (proj2 (proj2 (proj2
    (dependencies_keys rf jp "./test/fixtures/package-test.json" "{}"
       package_test _ _ eq_refl eq_refl eq_refl eq_refl))) _).
  vm_compute. reflexivity.
Defined.

(** C4 as stated fails where a mapping has array-index keys: [Object.keys]
    lists them first, in ascending numeric order, whatever the order in
    which the parser created them. *)
Lemma dependencies_order_counterexample :
  let d := [("b", "*"); ("10", "*"); ("2", "*")] in
  let dd := [("a", "*")] in
  let rf := fun _ : string => Ret "{}" in
  let jp := fun _ : string =>
    Ret {| pj_dependencies := Some d; pj_devDependencies := Some dd |} in
  dependencies rf jp "package.json" = Ret ["2"; "10"; "b"; "a"] /\
  own_keys d ++ own_keys dd = ["b"; "10"; "2"; "a"] /\
  dependencies rf jp "package.json" <> Ret (own_keys d ++ own_keys dd).
Proof.
  vm_compute. repeat split. discriminate.
Qed.

Lemma request_logged (responses : string -> promise string)
    (url : string) (net : network) :
  snd (request responses url net) = net ++ [url] /\
  snd (request responses url net) <> net.
Proof.
  split; [reflexivity|]. simpl. intros H.
  apply (f_equal (@List.length string)) in H.
  rewrite length_app in H. simpl in H. lia.
Qed.

(** C6: a manifest that parses but has no [devDependencies] makes
    [matchDependencies] (variant B) fail with the TypeError that
    [dependencies] throws while it reads the manifest, and no request has
    been made by then. *)
Theorem matchDependencies_missing_devDependencies
    (readFileSync : string -> result string)
    (JSON_parse_manifest : string -> result package_json)
    (JSON_parse_catalog : string -> result docker_json)
    (cheerio_select : string -> string -> list string)
    (responses : string -> promise string)
    (path text : string) (pj : package_json) (net : network) :
  readFileSync path = Ret text ->
  JSON_parse_manifest text = Ret pj ->
  pj_devDependencies pj = None ->
  dependencies readFileSync JSON_parse_manifest path
    = Throw (TypeError "Cannot convert undefined or null to object") /\
  matchDependenciesB
    (packageParserB readFileSync JSON_parse_manifest JSON_parse_catalog
                    cheerio_select responses) path net
    = (Throw (TypeError "Cannot convert undefined or null to object"), net).
Proof.
  intros Hread Hparse Hdev.
  assert (Hdeps : dependencies readFileSync JSON_parse_manifest path
            = Throw (TypeError "Cannot convert undefined or null to object")).
  { unfold dependencies. rewrite Hread; simpl. rewrite Hparse; simpl.
    rewrite Hdev. destruct (pj_dependencies pj); reflexivity. }
  split; [exact Hdeps|].
  unfold matchDependenciesB, packageParserB; simpl.
  now rewrite Hdeps.
Qed.

Lemma matchDependencies_missing_devDependencies_witness :
  let rf := fun _ : string => Ret "{}" in
  let jp := fun _ : string =>
    Ret {| pj_dependencies := Some [("express", "*")];
           pj_devDependencies := None |} in
  let jc := fun _ : string => Ret {| results := [] |} in
  let ch := fun _ _ : string => @nil string in
  let resp := fun _ : string => (0, Ret "") in
  matchDependenciesB (packageParserB rf jp jc ch resp) "package.json" []
    = (Throw (TypeError "Cannot convert undefined or null to object"), []).
Proof.
  intros rf jp jc ch resp.
  exact (proj2 (matchDependencies_missing_devDependencies rf jp jc ch resp
           "package.json" "{}" _ [] eq_refl eq_refl eq_refl)).
Defined.

(** ** The page scraper *)

(** C9: when no element of the page matches the sidebar selector, the
    scraper returns the sequence that holds one empty string; it raises no
    error. *)
Theorem parseDependencies_absent_node
    (cheerio_select : string -> string -> list string) (html : string) :
  cheerio_select html sidebar_selector = [] ->
  parseDependencies cheerio_select html = [""].
Proof.
  intros Habsent. unfold parseDependencies. rewrite Habsent. reflexivity.
Qed.

Lemma parseDependencies_absent_node_witness :
  parseDependencies (fun _ _ => []) "<html><body></body></html>" = [""].
Proof.
  apply (parseDependencies_absent_node (fun _ _ => [])). reflexivity.
Defined.

(** The fixture text of the test suite is scraped as the test expects. *)
Lemma parseDependencies_fixture (html : string) :
  parseDependencies
    (fun _ _ => ["object relational mapper, nodejs, orm, mssql, postgres, postgresql, sqlite, mysql"])
    html
  = targetKeywords.
Proof. vm_compute. reflexivity. Qed.

(** *** What the pattern does to a token *)

(** The search for matches ends: any fuel above the length of the
    subject gives the same result, that of [replace_all]. *)
Lemma replace_from_fuel (r : regex) (fuel1 fuel2 : nat) (s : string) :
  String.length s < fuel1 -> String.length s < fuel2 ->
  replace_from fuel1 r s = replace_from fuel2 r s.
Proof.
  revert fuel2 s. induction fuel1 as [|fuel1 IH]; intros fuel2 s H1 H2; [lia|].
  destruct fuel2 as [|fuel2]; [lia|]. simpl.
  destruct (exec_at r s) as [[rest caps]|].
  - destruct (Nat.ltb_spec (String.length rest) (String.length s)).
    + f_equal. apply IH; lia.
    + destruct s as [|c s]; [reflexivity|]. simpl in *.
      do 2 f_equal. apply IH; lia.
  - destruct s as [|c s]; [reflexivity|]. simpl in *.
    f_equal. apply IH; lia.
Qed.

Lemma append_nil_r (s : string) : (s ++ "")%string = s.
Proof. induction s; simpl; congruence. Qed.

Lemma take_app_length (s1 s2 : string) :
  consumed (s1 ++ s2) s2 = s1.
Proof.
  unfold consumed. rewrite length_append.
  replace (String.length s1 + String.length s2 - String.length s2)
    with (String.length s1) by lia.
  induction s1 as [|c s1 IH]; simpl.
  - destruct s2; reflexivity.
  - now rewrite IH.
Qed.

(** A star that can take all of [w] and no more, followed by something
    that matches what is left, takes all of [w]. *)
Lemma star_match_greedy (p : ascii -> bool) (w r : string)
    (k : string -> option match_state) (m : match_state) :
  all_chars p w = true -> k r = Some m ->
  (forall c r', r = String c r' -> p c = true ->
     star_match p r' k = None) ->
  star_match p (w ++ r) k = Some m.
Proof.
  intros Hw Hk Hr. induction w as [|c w IH]; simpl in *.
  - destruct r as [|c r']; simpl; [exact Hk|].
    destruct (p c) eqn:Hc; [|exact Hk].
    now rewrite (Hr c r' eq_refl Hc).
  - apply andb_true_iff in Hw as [Hc Hw]. rewrite Hc.
    now rewrite (IH Hw).
Qed.

(** A star whose continuation fails wherever the star could stop fails. *)
Lemma star_match_fails (p : ascii -> bool) (s : string)
    (k : string -> option match_state) :
  (forall pre s', s = (pre ++ s')%string -> k s' = None) ->
  star_match p s k = None.
Proof.
  induction s as [|c s IH]; intros Hk; simpl.
  - apply (Hk "" ""). reflexivity.
  - assert (Hhere : k (String c s) = None) by (apply (Hk "" (String c s)); reflexivity).
    destruct (p c); [|exact Hhere].
    rewrite IH; [exact Hhere|].
    intros pre s' ->. apply (Hk (String c pre) s'). reflexivity.
Qed.

Lemma all_chars_suffix (p : ascii -> bool) (pre s : string) :
  all_chars p (pre ++ s) = true -> all_chars p s = true.
Proof.
  induction pre as [|c pre IH]; simpl; [tauto|].
  intros H. apply andb_true_iff in H as [_ H]. auto.
Qed.

Lemma starts_with_white_space (s : string) :
  all_chars white_space s = true -> starts_with non_space s = false.
Proof.
  destruct s as [|c s]; simpl; [reflexivity|].
  intros H. apply andb_true_iff in H as [H _].
  unfold non_space. now rewrite H.
Qed.

Lemma string_app_assoc (s1 s2 s3 : string) :
  ((s1 ++ s2) ++ s3)%string = (s1 ++ (s2 ++ s3))%string.
Proof. induction s1; simpl; congruence. Qed.

Lemma exec_at_keyword (ws1 mid ws2 : string) (a b : ascii) :
  all_chars white_space ws1 = true ->
  all_chars white_space ws2 = true ->
  non_space a = true -> non_space b = true ->
  all_chars dot mid = true ->
  exec_at keyword_pattern
    (ws1 ++ String a (mid ++ String b ws2))%string
  = Some (""%string, [String a (mid ++ String b "")%string]).
Proof.
  intros Hws1 Hws2 Ha Hb Hmid.
  unfold exec_at, keyword_pattern. cbn [rmatch].
  apply star_match_greedy; [exact Hws1| |].
  - cbn [rmatch]. rewrite Ha.
    apply star_match_greedy; [exact Hmid| |].
    + cbn [rmatch]. rewrite Hb. cbn [app].
      replace ws2 with (ws2 ++ "")%string at 1 by apply append_nil_r.
      erewrite star_match_greedy; [| exact Hws2 | reflexivity |discriminate].
      f_equal. f_equal. f_equal.
      replace (String a (mid ++ String b ws2))%string
        with (String a (mid ++ String b "") ++ ws2)%string.
      * apply take_app_length.
      * simpl. f_equal. rewrite string_app_assoc. reflexivity.
    + intros c r' Hr Hc. injection Hr as <- <-.
      apply star_match_fails. intros pre s' Hsplit.
      rewrite Hsplit in Hws2. apply all_chars_suffix in Hws2.
      destruct s' as [|c s']; [reflexivity|].
      apply starts_with_white_space in Hws2. simpl in Hws2.
      now rewrite Hws2.
  - intros c r' Hr Hc. injection Hr as <- <-.
    unfold non_space in Ha. rewrite Hc in Ha. discriminate.
Qed.

Lemma exec_at_empty : exec_at keyword_pattern "" = None.
Proof. reflexivity. Qed.

(** The pattern trims a token that has two characters or more other than
    white space, all on one line: what comes back is the token without the
    white space before and after. *)
Lemma replace_all_trims (ws1 mid ws2 : string) (a b : ascii) :
  all_chars white_space ws1 = true ->
  all_chars white_space ws2 = true ->
  non_space a = true -> non_space b = true ->
  all_chars dot mid = true ->
  replace_all keyword_pattern
    (ws1 ++ String a (mid ++ String b ws2))%string
  = String a (mid ++ String b "")%string.
Proof.
  intros Hws1 Hws2 Ha Hb Hmid.
  unfold replace_all. cbn [replace_from].
  rewrite (exec_at_keyword ws1 mid ws2 a b Hws1 Hws2 Ha Hb Hmid).
  assert (Hlen : (String.length "" <?
                  String.length (ws1 ++ String a (mid ++ String b ws2)))%nat
                 = true).
  { apply Nat.ltb_lt. rewrite length_append. simpl. lia. }
  rewrite Hlen. unfold dollar1. cbn [nth].
  destruct (String.length (ws1 ++ String a (mid ++ String b ws2))) eqn:Hn.
  - apply Nat.ltb_lt in Hlen. simpl in Hlen. lia.
  - cbn [replace_from]. rewrite exec_at_empty. apply append_nil_r.
Qed.

Lemma count_chars_app (p : ascii -> bool) (s1 s2 : string) :
  count_chars p (s1 ++ s2) = count_chars p s1 + count_chars p s2.
Proof. induction s1 as [|c s1 IH]; simpl; [reflexivity|]. rewrite IH. lia. Qed.

(** The pattern matches nowhere in a token that has fewer than two
    characters other than white space. *)
Lemma exec_at_few (s : string) :
  count_chars non_space s <= 1 -> exec_at keyword_pattern s = None.
Proof.
  intros Hs. unfold exec_at, keyword_pattern. cbn [rmatch].
  apply star_match_fails. intros pre s' ->.
  rewrite count_chars_app in Hs.
  destruct s' as [|c rest]; [reflexivity|]. cbn [rmatch].
  simpl in Hs. destruct (non_space c) eqn:Hc; [|reflexivity].
  apply star_match_fails. intros pre2 s2 ->.
  rewrite count_chars_app in Hs.
  destruct s2 as [|c2 rest2]; [reflexivity|]. cbn [rmatch].
  simpl in Hs. destruct (non_space c2); [lia | reflexivity].
Qed.

Lemma replace_from_no_match (r : regex) (fuel : nat) (s : string) :
  (forall pre s', s = (pre ++ s')%string -> exec_at r s' = None) ->
  replace_from fuel r s = s.
Proof.
  revert s. induction fuel as [|fuel IH]; intros s Hno; simpl; [reflexivity|].
  rewrite (Hno "" s eq_refl).
  destruct s as [|c s]; [reflexivity|].
  f_equal. apply IH. intros pre s' ->.
  apply (Hno (String c pre) s'). reflexivity.
Qed.

(** A token with fewer than two characters other than white space is
    left as it is, white space included. *)
Lemma replace_all_untrimmed (s : string) :
  count_chars non_space s <= 1 -> replace_all keyword_pattern s = s.
Proof.
  intros Hs. unfold replace_all. apply replace_from_no_match.
  intros pre s' ->. apply exec_at_few.
  rewrite count_chars_app in Hs. lia.
Qed.

(** C5 at tokens that the pattern misses: one that has a single character
    other than white space keeps the white space around it, as does one
    made of white space only, and white space around a line break inside a
    token is removed. *)
Theorem parseDependencies_untrimmed (html : string) :
  parseDependencies (fun _ _ => ["orm, q, db"]) html = ["orm"; " q"; "db"] /\
  parseDependencies (fun _ _ => ["orm, , db "]) html = ["orm"; " "; "db"] /\
  parseDependencies
    (fun _ _ => [("key value " ++ String (ascii_of_nat 10) " store, db")%string])
    html
    = ["key valuestore"; "db"].
Proof. vm_compute. repeat split. Qed.

(** ** Objects: reading and writing properties *)

Lemma own_keys_upsert_new {V} (o : jsobj V) (k : string) (v : V) :
  mem k (own_keys o) = false -> own_keys (upsert o k v) = own_keys o ++ [k].
Proof.
  induction o as [|[k' v'] o IH]; simpl; [reflexivity|].
  destruct (String.eqb k k'); [discriminate|].
  intros H. simpl. now rewrite IH.
Qed.

Lemma own_keys_upsert_old {V} (o : jsobj V) (k : string) (v : V) :
  mem k (own_keys o) = true -> own_keys (upsert o k v) = own_keys o.
Proof.
  induction o as [|[k' v'] o IH]; simpl; [discriminate|].
  destruct (String.eqb k k'); [reflexivity|].
  intros H. simpl. now rewrite IH.
Qed.

Lemma In_own_keys_upsert {V} (o : jsobj V) (k k' : string) (v : V) :
  In k' (own_keys (upsert o k v)) <-> k' = k \/ In k' (own_keys o).
Proof.
  destruct (mem k (own_keys o)) eqn:Hm.
  - rewrite own_keys_upsert_old by exact Hm.
    apply mem_In in Hm. split; [tauto|]. intros [->|H]; assumption.
  - rewrite own_keys_upsert_new by exact Hm.
    rewrite in_app_iff. simpl. split.
    + intros [H|[H|[]]]; [right | left]; congruence.
    + intros [H|H]; [right; left | left]; congruence.
Qed.

Lemma NoDup_own_keys_upsert {V} (o : jsobj V) (k : string) (v : V) :
  NoDup (own_keys o) -> NoDup (own_keys (upsert o k v)).
Proof.
  intros Hnd. destruct (mem k (own_keys o)) eqn:Hm.
  - now rewrite own_keys_upsert_old.
  - rewrite own_keys_upsert_new by exact Hm.
    apply mem_false_In in Hm.
    apply NoDup_app; [exact Hnd | repeat constructor; intros [] |].
    intros x Hx [<-|[]]. contradiction.
Qed.

Lemma get_upsert {V} (o : jsobj V) (k k' : string) (v : V) :
  get (upsert o k v) k' = if String.eqb k' k then Some v else get o k'.
Proof.
  induction o as [|[k0 v0] o IH]; simpl.
  - reflexivity.
  - destruct (String.eqb_spec k k0) as [->|Hne]; simpl.
    + destruct (String.eqb k' k0); reflexivity.
    + rewrite IH. destruct (String.eqb_spec k' k0) as [->|Hne'].
      * destruct (String.eqb_spec k0 k); [congruence | reflexivity].
      * reflexivity.
Qed.

Lemma In_own_keys_obj_set {V} (o : jsobj V) (k k' : string) (v : V) :
  In k' (own_keys (obj_set o k v)) <->
  (k' = k /\ k <> "__proto__") \/ In k' (own_keys o).
Proof.
  unfold obj_set. destruct (String.eqb_spec k "__proto__") as [->|Hne].
  - tauto.
  - rewrite In_own_keys_upsert. tauto.
Qed.

Lemma NoDup_own_keys_obj_set {V} (o : jsobj V) (k : string) (v : V) :
  NoDup (own_keys o) -> NoDup (own_keys (obj_set o k v)).
Proof.
  unfold obj_set. destruct (String.eqb k "__proto__");
    [tauto | apply NoDup_own_keys_upsert].
Qed.

Lemma get_obj_set {V} (o : jsobj V) (k k' : string) (v : V) :
  get (obj_set o k v) k' =
  if String.eqb k "__proto__" then get o k'
  else if String.eqb k' k then Some v else get o k'.
Proof.
  unfold obj_set. destruct (String.eqb k "__proto__");
    [reflexivity | apply get_upsert].
Qed.

(** ** The catalog parser *)

Lemma add_entries_keys (entries : list docker_entry) (o : jsobj string)
    (k : string) :
  In k (own_keys (add_entries entries o)) <->
  (In k (map name entries) /\ k <> "__proto__") \/ In k (own_keys o).
Proof.
  revert o. induction entries as [|el entries IH]; intros o; simpl.
  - tauto.
  - unfold add_entries in *. simpl. rewrite IH, In_own_keys_obj_set.
    split.
    + intros [[H1 H2]|[[-> H]|H]]; auto.
    + intros [[[<-|H1] H2]|H]; auto.
Qed.

Lemma add_entries_NoDup (entries : list docker_entry) (o : jsobj string) :
  NoDup (own_keys o) -> NoDup (own_keys (add_entries entries o)).
Proof.
  revert o. induction entries as [|el entries IH]; intros o Hnd; simpl.
  - exact Hnd.
  - apply IH. now apply NoDup_own_keys_obj_set.
Qed.

Lemma add_entries_get_other (entries : list docker_entry) (o : jsobj string)
    (k : string) :
  ~ In k (map name entries) -> get (add_entries entries o) k = get o k.
Proof.
  revert o. induction entries as [|el entries IH]; intros o Hnot; simpl.
  - reflexivity.
  - simpl in Hnot. unfold add_entries in *. simpl. rewrite IH by tauto.
    rewrite get_obj_set.
    destruct (String.eqb (name el) "__proto__"); [reflexivity|].
    destruct (String.eqb_spec k (name el)); [|reflexivity].
    exfalso. apply Hnot. left. congruence.
Qed.

Lemma add_entries_app (l1 l2 : list docker_entry) (o : jsobj string) :
  add_entries (l1 ++ l2) o = add_entries l2 (add_entries l1 o).
Proof. apply fold_left_app. Qed.

(** C8, as the code has it: [parseDockers] raises no error of its own; the
    keys of the object it returns are the names that occur in [results],
    each once, but for the name ["__proto__"], which creates no property;
    and a name has the description of the last entry that bears it. *)
Theorem parseDockers_last_write_wins
    (JSON_parse_catalog : string -> result docker_json)
    (dockerJSON : string) (dj : docker_json) :
  JSON_parse_catalog dockerJSON = Ret dj ->
  exists dockers,
    parseDockers JSON_parse_catalog dockerJSON = Ret dockers /\
    NoDup (own_keys dockers) /\
    (forall k, In k (own_keys dockers) <->
               In k (map name (results dj)) /\ k <> "__proto__") /\
    (forall before el after,
       results dj = before ++ el :: after ->
       ~ In (name el) (map name after) ->
       name el <> "__proto__" ->
       get dockers (name el) = Some (description el)).
Proof.
  intros Hparse. exists (add_entries (results dj) []).
  split; [unfold parseDockers; rewrite Hparse; reflexivity|].
  split; [apply add_entries_NoDup; constructor|].
  split.
  - intros k. rewrite add_entries_keys. simpl. tauto.
  - intros before el after Hres Hlast Hproto.
    rewrite Hres, add_entries_app. simpl.
    change (get (add_entries after
                   (obj_set (add_entries before []) (name el) (description el)))
                (name el) = Some (description el)).
    rewrite add_entries_get_other by exact Hlast.
    rewrite get_obj_set.
    destruct (String.eqb_spec (name el) "__proto__"); [contradiction|].
    now rewrite String.eqb_refl.
Qed.

Lemma parseDockers_last_write_wins_witness :
  exists dockers,
    parseDockers (fun _ => Ret {| results := [nginx_old; redis; nginx] |}) "{}"
      = Ret dockers /\
    Object_keys dockers = ["nginx"; "redis"] /\
    get dockers "nginx" = Some "Official build of Nginx.".
Proof.
  destruct (parseDockers_last_write_wins
              (fun _ => Ret {| results := [nginx_old; redis; nginx] |}) "{}"
              _ eq_refl) as [dockers [Heq [_ [_ Hget]]]].
  exists dockers. split; [exact Heq|]. split.
  - vm_compute in Heq. injection Heq as <-. reflexivity.
  - apply (Hget [nginx_old; redis] nginx []); [reflexivity | simpl; tauto |].
    discriminate.
Defined.

Lemma parseDockers_fixture :
  parseDockers (fun _ => Ret {| results := [nginx] |}) "{}"
  = Ret [("nginx", "Official build of Nginx.")].
Proof. reflexivity. Qed.

(** C8 as stated fails at an entry named ["__proto__"]: the assignment
    creates no property, so the name is not among the keys. *)
Lemma parseDockers_proto_counterexample :
  let proto := {| name := "__proto__"; description := "Not an image." |} in
  let jc := fun _ : string => Ret {| results := [proto; nginx] |} in
  parseDockers jc "{}" = Ret [("nginx", "Official build of Nginx.")] /\
  In "__proto__" (map name [proto; nginx]) /\
  ~ In "__proto__" (own_keys [("nginx", "Official build of Nginx.")]).
Proof.
  simpl. split; [reflexivity|]. split; [tauto|].
  intros [H|[]]. discriminate.
Qed.

(** ** The matcher *)

(** Whatever variant B resolves to is an array. *)
Lemma matchDependenciesB_returns_array (this : parser) (path : string)
    (net net' : network) (r : match_result) :
  matchDependenciesB this path net = (Ret r, net') ->
  exists names, r = Arr names.
Proof.
  unfold matchDependenciesB.
  destruct (this_dependencies this path) as [deps|e]; [|discriminate].
  destruct (this_fetchDockers this None net) as [pd net1].
  destruct (fetch_each _ _ net1) as [pns net2].
  destruct (await (Promise_all_cons pd pns)) as [[dk kss]|e];
    simpl; [|discriminate].
  destruct (match_keywords dk (flatten kss)) as [depList|e];
    simpl; [|discriminate].
  intros H. injection H as <- _. eauto.
Qed.

(** C3, variant B on the stubs of the test suite: the promise resolves to
    the array of the matched names, [Object.keys(depList)], not to the
    object from names to [true] that the comment of the method describes
    and the test expects. *)
Theorem matchDependenciesB_test_stubs :
  matchDependenciesB test_parser "./test/fixtures/package-test.json" []
    = (Ret (Arr ["postgres"; "mysql"]), []) /\
  (forall o, fst (matchDependenciesB test_parser
                    "./test/fixtures/package-test.json" []) <> Ret (Obj o)).
Proof.
  assert (H : matchDependenciesB test_parser
                "./test/fixtures/package-test.json" []
              = (Ret (Arr ["postgres"; "mysql"]), []))
    by (vm_compute; reflexivity).
  split; [exact H|]. intros o. rewrite H. simpl. discriminate.
Qed.

(** *** Variant A *)

Lemma dockerPromises_out_of_scope :
  resolve [[]; function_scope_A; module_scope_A] "dockerPromises"
  = Throw (ReferenceError "dockerPromises is not defined").
Proof. reflexivity. Qed.



(** *** The concurrent batch *)

Lemma first_rejection_In (ps : list (nat * option error)) (t : nat)
    (e : error) :
  first_rejection ps = Some (t, e) -> In (t, Some e) ps.
Proof.
  induction ps as [|[t0 [e0|]] ps IH]; simpl; [discriminate| |].
  - destruct (first_rejection ps) as [[t' e']|].
    + destruct (t' <? t0)%nat; intros H; injection H as <- <-; auto.
    + intros H; injection H as <- <-; auto.
  - auto.
Qed.

Lemma first_rejection_earliest (ps : list (nat * option error)) (t : nat)
    (e : error) :
  first_rejection ps = Some (t, e) ->
  forall t' e', In (t', Some e') ps -> t <= t'.
Proof.
  revert t e. induction ps as [|[t0 [e0|]] ps IH]; simpl; intros t e;
    [discriminate| |].
  - destruct (first_rejection ps) as [[t1 e1]|] eqn:Hfr.
    + destruct (Nat.ltb_spec t1 t0) as [Hlt|Hge];
        intros H; injection H as <- <-; intros t' e' [Hin|Hin].
      * injection Hin as <- _. lia.
      * eapply IH; eauto.
      * injection Hin as <- _. lia.
      * specialize (IH t1 e1 eq_refl t' e' Hin). lia.
    + intros H; injection H as <- <-. intros t' e' [Hin|Hin].
      * injection Hin as <- _. lia.
      * exfalso. clear IH. induction ps as [|[t2 [e2|]] ps IHps];
          simpl in *; [contradiction| |].
        -- destruct (first_rejection ps) as [[? ?]|];
             [destruct (_ <? _)%nat|]; discriminate.
        -- destruct Hin as [Hin|Hin]; [discriminate | auto].
  - intros H t' e' [Hin|Hin]; [discriminate | eapply IH; eauto].
Qed.

Lemma first_rejection_exists (ps : list (nat * option error)) (t0 : nat)
    (e0 : error) :
  In (t0, Some e0) ps -> exists t e, first_rejection ps = Some (t, e).
Proof.
  induction ps as [|[t1 [e1|]] ps IH]; simpl; [contradiction| |].
  - intros _. destruct (first_rejection ps) as [[t' e']|];
      [destruct (t' <? t1)%nat|]; eauto.
  - intros [H|H]; [discriminate | auto].
Qed.

Lemma wrap_error_wraps (e : error) : wraps (wrap_error e) e.
Proof.
  exists (ERR_URL_PARSE ++ " ")%string. split; [discriminate|].
  unfold wrap_error, Error, ERR_URL_PARSE. simpl. reflexivity.
Qed.

(** C7, as the code has it: in variant B, when the catalog fetch or any
    page fetch of the batch is rejected, [matchDependencies] is rejected,
    with the reason of the rejection that came first and with that reason
    as it is; no result is produced from the fetches that succeeded.  The
    fetchers of variant B pass the error of a failed request on
    unchanged. *)
Theorem matchDependenciesB_first_failure (this : parser) (path : string)
    (net net1 net2 : network) (deps : list string)
    (pd : promise (jsobj string)) (pns : list (promise (list string)))
    (t0 : nat) (e0 : error) :
  this_dependencies this path = Ret deps ->
  this_fetchDockers this None net = (pd, net1) ->
  fetch_each (this_fetchNPM this) (map (this_depURL this) deps) net1
    = (pns, net2) ->
  In (t0, Some e0) (status pd :: map status pns) ->
  (exists t e,
     matchDependenciesB this path net = (Throw e, net2) /\
     In (t, Some e) (status pd :: map status pns) /\
     (forall t' e', In (t', Some e') (status pd :: map status pns) -> t <= t'))
  /\
  (forall responses parse url n t e,
     responses url = (t, Throw e) ->
     fetchNPM_B responses parse url n = ((t, Throw e), n ++ [url]))
  /\
  (forall responses parse url n t e,
     responses (or_default url docker_default_url) = (t, Throw e) ->
     fetchDockers_B responses parse url n
       = ((t, Throw e), n ++ [or_default url docker_default_url])).
Proof.
  intros Hdeps Hdock Hfetch Hin. split; [|split].
  - destruct (first_rejection_exists _ _ _ Hin) as [t [e Hfr]].
    exists t, e. split; [|split].
    + unfold matchDependenciesB. rewrite Hdeps, Hdock, Hfetch.
      unfold Promise_all_cons. rewrite Hfr. reflexivity.
    + now apply first_rejection_In.
    + now apply first_rejection_earliest with (e := e).
  - intros responses parse url n t e Hresp.
    unfold fetchNPM_B, request. rewrite Hresp. reflexivity.
  - intros responses parse url n t e Hresp.
    unfold fetchDockers_B, request. rewrite Hresp. reflexivity.
Qed.

Lemma matchDependenciesB_first_failure_witness :
  exists t e,
    matchDependenciesB failing_parser "package.json" []
      = (Throw e, [docker_default_url; depURL "express"; depURL "redis"]) /\
    In (t, Some e)
       [(5, None); (5, None); (3, Some (Error "ETIMEDOUT"))] /\
    (forall t' e',
       In (t', Some e')
          [(5, None); (5, None); (3, Some (Error "ETIMEDOUT"))] -> t <= t').
Proof.
  refine (proj1 (matchDependenciesB_first_failure failing_parser
     "package.json" [] [docker_default_url]
     [docker_default_url; depURL "express"; depURL "redis"]
     ["express"; "redis"]
     (5, Ret [("nginx", "Official build of Nginx.");
              ("redis", "Redis is an open source key-value store.")])
     [(5, Ret ["redis"; "cache"]); (3, Throw (Error "ETIMEDOUT"))]
     3 (Error "ETIMEDOUT") _ _ _ _)).
  - reflexivity.
  - reflexivity.
  - reflexivity.
  - simpl. auto.
Defined.

(** C7 as stated fails in variant B: the error of the request that failed
    is the reason of the rejection as it is, nothing is added to it. *)
Lemma matchDependenciesB_unwrapped_counterexample :
  failing_responses (depURL "redis") = (3, Throw (Error "ETIMEDOUT")) /\
  matchDependenciesB failing_parser "package.json" []
    = (Throw (Error "ETIMEDOUT"),
       [docker_default_url; depURL "express"; depURL "redis"]) /\
  ~ wraps (Error "ETIMEDOUT") (Error "ETIMEDOUT").
Proof.
  split; [reflexivity|]. split; [reflexivity|].
  intros [context [_ Heq]].
  apply (f_equal String.length) in Heq.
  rewrite length_append in Heq. simpl in Heq. lia.
Qed.

(** *** The match *)

Lemma dedup_seen_In (seen l : list string) (k : string) :
  In k (dedup_seen seen l) <-> In k l /\ ~ In k seen.
Proof.
  revert seen. induction l as [|x l IH]; intros seen; simpl; [tauto|].
  destruct (mem x seen) eqn:Hm.
  - apply mem_In in Hm. rewrite IH. split; [tauto|].
    intros [[<-|H] Hn]; [contradiction | tauto].
  - apply mem_false_In in Hm. simpl. rewrite IH, in_app_iff. simpl.
    split.
    + intros [<-|[H1 H2]]; tauto.
    + intros [[<-|H] Hn]; [tauto|].
      destruct (string_dec x k) as [->|Hne]; [tauto|].
      right. split; [exact H|]. intros [H'|[H'|[]]]; tauto.
Qed.

Lemma dedup_seen_NoDup (seen l : list string) : NoDup (dedup_seen seen l).
Proof.
  revert seen. induction l as [|x l IH]; intros seen; simpl; [constructor|].
  destruct (mem x seen); [apply IH|].
  constructor; [|apply IH].
  rewrite dedup_seen_In, in_app_iff. simpl. tauto.
Qed.

Lemma flatten_from (kss : list (list string)) (acc : list string) :
  fold_left (fun accum el => accum ++ el) kss acc = acc ++ concat kss.
Proof.
  revert acc. induction kss as [|ks kss IH]; intros acc; simpl.
  - now rewrite app_nil_r.
  - now rewrite IH, app_assoc.
Qed.

Lemma flatten_concat (kss : list (list string)) : flatten kss = concat kss.
Proof. apply flatten_from. Qed.

Lemma all_values_no_rejection {A} (ps : list (promise A)) (l : list A) :
  all_values ps = Ret l -> first_rejection (map status ps) = None.
Proof.
  revert l. induction ps as [|[t [a|e]] ps IH]; intros l; simpl;
    [reflexivity| |discriminate].
  destruct (all_values ps) as [l'|e]; simpl; [|discriminate].
  intros _. now apply (IH l').
Qed.

Lemma Promise_all_cons_values {A B} (p : promise A) (ps : list (promise B))
    (a : A) (l : list B) :
  await p = Ret a -> all_values ps = Ret l ->
  await (Promise_all_cons p ps) = Ret (a, l).
Proof.
  intros Hp Hl. unfold Promise_all_cons. destruct p as [t r].
  simpl in Hp. subst r. simpl.
  rewrite (all_values_no_rejection _ _ Hl). simpl. now rewrite Hl.
Qed.

Lemma match_keywords_from (dockers : jsobj string) (kws : list string)
    (acc : jsobj bool) :
  has_own dockers "hasOwnProperty" = false ->
  has_own acc "hasOwnProperty" = false ->
  exists depList,
    fold_left (fun r kw => depList <- r ;; match_keyword dockers depList kw)
              kws (Ret acc) = Ret depList /\
    own_keys depList
      = own_keys acc ++ dedup_seen (own_keys acc) (filter (kept dockers) kws).
Proof.
  intros Hd. revert acc. induction kws as [|kw kws IH]; intros acc Ha; simpl.
  - exists acc. now rewrite app_nil_r.
  - unfold match_keyword at 2, hasOwnProperty. rewrite Ha, Hd. simpl.
    assert (Hk : kept dockers kw
                 = has_own dockers kw && negb (kw =? "__proto__")%string)
      by reflexivity.
    rewrite Hk.
    destruct (has_own acc kw) eqn:Hseen; simpl.
    + destruct (IH acc Ha) as [depList [Hfold Hkeys]].
      exists depList. split; [exact Hfold|]. rewrite Hkeys.
      unfold has_own in Hseen.
      destruct (has_own dockers kw && negb (kw =? "__proto__")%string);
        simpl; [now rewrite Hseen | reflexivity].
    + unfold has_own in Hseen.
      destruct (has_own dockers kw) eqn:Hoff; simpl.
      * unfold obj_set.
        destruct (String.eqb_spec kw "__proto__") as [Hp|Hp]; simpl.
        -- apply (IH acc Ha).
        -- assert (Ha' : has_own (upsert acc kw true) "hasOwnProperty" = false).
           { unfold has_own. rewrite own_keys_upsert_new by exact Hseen.
             apply mem_false_In. rewrite in_app_iff.
             intros [H|[H|[]]].
             - apply mem_In in H. unfold has_own in Ha. congruence.
             - subst kw. congruence. }
           destruct (IH _ Ha') as [depList [Hfold Hkeys]].
           exists depList. split; [exact Hfold|]. rewrite Hkeys, Hseen.
           rewrite own_keys_upsert_new by exact Hseen.
           now rewrite <- app_assoc.
      * apply (IH acc Ha).
Qed.

Lemma match_keywords_keys (dockers : jsobj string) (kws : list string) :
  has_own dockers "hasOwnProperty" = false ->
  exists depList,
    match_keywords dockers kws = Ret depList /\
    own_keys depList = dedup (filter (kept dockers) kws).
Proof.
  intros Hd. apply (match_keywords_from dockers kws [] Hd eq_refl).
Qed.

Lemma kept_iff (dockers : jsobj string) (k : string) :
  kept dockers k = true <-> In k (own_keys dockers) /\ k <> "__proto__".
Proof.
  unfold kept, has_own. rewrite andb_true_iff, mem_In, negb_true_iff.
  destruct (String.eqb_spec k "__proto__"); split; intros [H1 H2];
    split; congruence.
Qed.

(** C1, as the code has it: when the dependency list is read, the catalog
    and every keyword list are fetched, and the catalog has no entry named
    ["hasOwnProperty"], variant B resolves to the keywords that occur both
    in the keyword lists put together and among the names of the catalog,
    but for ["__proto__"]; none appears twice; they come as [Object.keys]
    orders them, which is the order of first occurrence when none of them
    is an array index. *)
Theorem matchDependenciesB_matches (this : parser) (path : string)
    (net net1 net2 : network) (deps : list string)
    (pd : promise (jsobj string)) (pns : list (promise (list string)))
    (dockers : jsobj string) (kss : list (list string)) :
  this_dependencies this path = Ret deps ->
  this_fetchDockers this None net = (pd, net1) ->
  fetch_each (this_fetchNPM this) (map (this_depURL this) deps) net1
    = (pns, net2) ->
  await pd = Ret dockers ->
  all_values pns = Ret kss ->
  has_own dockers "hasOwnProperty" = false ->
  exists names,
    matchDependenciesB this path net = (Ret (Arr names), net2) /\
    names = key_order (dedup (filter (kept dockers) (concat kss))) /\
    NoDup names /\
    (forall k, In k names <->
               In k (concat kss) /\ In k (own_keys dockers) /\
               k <> "__proto__") /\
    (forallb (fun k => negb (is_index k)) names = true ->
     names = dedup (filter (kept dockers) (concat kss))).
Proof.
  intros Hdeps Hdock Hfetch Hpd Hall Hshadow.
  destruct (match_keywords_keys dockers (flatten kss) Hshadow)
    as [depList [Hmatch Hkeys]].
  rewrite flatten_concat in Hkeys.
  exists (Object_keys depList).
  assert (Hnames : Object_keys depList
                   = key_order (dedup (filter (kept dockers) (concat kss))))
    by (unfold Object_keys; now rewrite Hkeys).
  split; [|split; [exact Hnames|split; [|split]]].
  - unfold matchDependenciesB. rewrite Hdeps, Hdock, Hfetch.
    rewrite (Promise_all_cons_values _ _ _ _ Hpd Hall). simpl.
    now rewrite Hmatch.
  - rewrite Hnames. apply key_order_NoDup, dedup_seen_NoDup.
  - intros k. rewrite Hnames, key_order_In. unfold dedup.
    rewrite dedup_seen_In, filter_In, kept_iff. simpl. tauto.
  - intros Hno. rewrite Hnames in *. apply key_order_no_index.
    rewrite forallb_forall in *. intros k Hk. apply Hno.
    now apply key_order_In.
Qed.

Lemma matchDependenciesB_matches_witness :
  matchDependenciesB two_pages_parser "package.json" []
  = (Ret (Arr ["postgres"; "mysql"; "redis"]), []).
Proof.
  destruct (matchDependenciesB_matches two_pages_parser "package.json"
              [] [] [] ["sequelize"; "connect-redis"]
              (Promise_resolve targetDocker)
              [Promise_resolve ["orm"; "postgres"; "mysql"; "postgres"];
               Promise_resolve ["redis"; "session"; "mysql"]]
              targetDocker
              [["orm"; "postgres"; "mysql"; "postgres"];
               ["redis"; "session"; "mysql"]]
              eq_refl eq_refl eq_refl eq_refl eq_refl eq_refl)
    as [names [Heq [Hnames _]]].
  rewrite Heq, Hnames. reflexivity.
Defined.

(** C1 as stated fails in three ways.  Keywords that are array indices
    come out in numeric order, not where they occur first; the keyword
    ["__proto__"] is never in the result, though a catalog may have it as
    a key; and a catalog with the key ["hasOwnProperty"] makes the call
    fail instead of returning the match. *)
Lemma matchDependenciesB_match_counterexample :
  (let catalog := [("10", "Ten."); ("2", "Two.")] in
   let kws := ["10"; "2"] in
   let this := stub_parser (Ret ["a"]) (Promise_resolve catalog)
                 (fun _ => Promise_resolve kws) in
   matched_keywords catalog kws = ["10"; "2"] /\
   matchDependenciesB this "package.json" [] = (Ret (Arr ["2"; "10"]), []))
  /\
  (let catalog := [("__proto__", "Not an image."); ("redis", "Redis.")] in
   let kws := ["__proto__"; "redis"] in
   let this := stub_parser (Ret ["a"]) (Promise_resolve catalog)
                 (fun _ => Promise_resolve kws) in
   matched_keywords catalog kws = ["__proto__"; "redis"] /\
   matchDependenciesB this "package.json" [] = (Ret (Arr ["redis"]), []))
  /\
  (let catalog := [("hasOwnProperty", "Not an image."); ("redis", "Redis.")] in
   let kws := ["redis"] in
   let this := stub_parser (Ret ["a"]) (Promise_resolve catalog)
                 (fun _ => Promise_resolve kws) in
   matched_keywords catalog kws = ["redis"] /\
   matchDependenciesB this "package.json" []
     = (Throw (TypeError "hasOwnProperty is not a function"), [])).
Proof.
  repeat split.
Qed.

(** * Further properties *)

(** ** The page scraper: what the pattern can and cannot do *)

Lemma star_match_inv (p : ascii -> bool) (s : string)
    (k : string -> option match_state) (m : match_state) :
  star_match p s k = Some m ->
  exists w s', s = (w ++ s')%string /\ all_chars p w = true /\ k s' = Some m.
Proof.
  induction s as [|c s IH]; simpl; intros H.
  - exists ""%string, ""%string. auto.
  - destruct (p c) eqn:Hc.
    + destruct (star_match p s k) as [m'|] eqn:Hs.
      * injection H as <-.
        destruct (IH eq_refl) as [w [s' [-> [Hw Hk]]]].
        exists (String c w), s'. simpl. rewrite Hc, Hw. auto.
      * exists ""%string, (String c s). auto.
    + exists ""%string, (String c s). auto.
Qed.

(** Where the pattern matches, it matches white space, a core that is not
    empty, and white space; the core is the capture. *)
Lemma exec_at_keyword_inv (s rest : string) (caps : list string) :
  exec_at keyword_pattern s = Some (rest, caps) ->
  exists w1 core w2,
    s = (w1 ++ core ++ w2 ++ rest)%string /\
    all_chars white_space w1 = true /\
    all_chars white_space w2 = true /\
    caps = [core] /\ core <> ""%string.
Proof.
  unfold exec_at, keyword_pattern. cbn [rmatch]. intros H.
  apply star_match_inv in H as [w1 [s1 [-> [Hw1 H]]]].
  destruct s1 as [|a r1]; [discriminate|]. cbn [rmatch] in H.
  destruct (non_space a); [|discriminate].
  apply star_match_inv in H as [mid [s2 [-> [_ H]]]].
  destruct s2 as [|b r2]; [discriminate|].
  destruct (non_space b); [|discriminate].
  apply star_match_inv in H as [w2 [s3 [-> [Hw2 H]]]].
  injection H as <- <-.
  exists w1, (String a (mid ++ String b "")), w2.
  split; [|split; [exact Hw1|split; [exact Hw2|split; [|discriminate]]]].
  - simpl. do 2 f_equal. now rewrite string_app_assoc.
  - cbn [app]. f_equal.
    replace (String a (mid ++ String b (w2 ++ s3)))%string
      with (String a (mid ++ String b "") ++ (w2 ++ s3))%string.
    + apply take_app_length.
    + simpl. f_equal. now rewrite string_app_assoc.
Qed.

Lemma deletes_refl (s : string) : deletes_white_space s s.
Proof. induction s; constructor; assumption. Qed.

Lemma deletes_app_drop (w s t : string) :
  all_chars white_space w = true ->
  deletes_white_space s t -> deletes_white_space (w ++ s) t.
Proof.
  induction w as [|c w IH]; simpl; intros Hw H; [exact H|].
  apply andb_true_iff in Hw as [Hc Hw]. apply dws_drop; auto.
Qed.

Lemma deletes_app_keep (u s t : string) :
  deletes_white_space s t -> deletes_white_space (u ++ s) (u ++ t).
Proof. induction u; simpl; intros H; [exact H | constructor; auto]. Qed.

Lemma replace_from_deletes (fuel : nat) (s : string) :
  deletes_white_space s (replace_from fuel keyword_pattern s).
Proof.
  revert s. induction fuel as [|fuel IH]; intros s; simpl;
    [apply deletes_refl|].
  destruct (exec_at keyword_pattern s) as [[rest caps]|] eqn:Hexec.
  - apply exec_at_keyword_inv in Hexec
      as [w1 [core [w2 [-> [Hw1 [Hw2 [-> Hcore]]]]]]].
    assert (Hlen : (String.length rest <?
                    String.length (w1 ++ core ++ w2 ++ rest))%nat = true).
    { apply Nat.ltb_lt. rewrite !length_append.
      destruct core; [congruence | simpl; lia]. }
    rewrite Hlen. unfold dollar1. cbn [nth].
    apply deletes_app_drop; [exact Hw1|].
    apply deletes_app_keep. apply deletes_app_drop; [exact Hw2 | apply IH].
  - destruct s as [|c s]; constructor. apply IH.
Qed.

Lemma replace_all_deletes (s : string) :
  deletes_white_space s (replace_all keyword_pattern s).
Proof. apply replace_from_deletes. Qed.

Lemma deletes_app (s t s' t' : string) :
  deletes_white_space s t -> deletes_white_space s' t' ->
  deletes_white_space (s ++ s') (t ++ t').
Proof.
  intros H H'. induction H; simpl; [exact H' | |]; constructor; auto.
Qed.

Lemma deletes_count (p : ascii -> bool) (s t : string) :
  deletes_white_space s t -> count_chars p t <= count_chars p s.
Proof. intros H. induction H; simpl; lia. Qed.

Lemma deletes_count_non_space (p : ascii -> bool) (s t : string) :
  (forall c, p c = true -> white_space c = false) ->
  deletes_white_space s t -> count_chars p t = count_chars p s.
Proof.
  intros Hp H. induction H as [|c s t H IH|c s t Hc H IH]; simpl;
    [reflexivity | lia |].
  destruct (p c) eqn:Hpc; [|exact IH].
  rewrite (Hp c Hpc) in Hc. discriminate.
Qed.

Lemma split_comma_not_nil (s : string) : split_comma s <> [].
Proof.
  induction s as [|c s IH]; simpl; [discriminate|].
  destruct (Ascii.eqb c ","); [discriminate|].
  destruct (split_comma s); discriminate.
Qed.

Lemma split_comma_length (s : string) :
  List.length (split_comma s) = S (count_chars is_comma s).
Proof.
  induction s as [|c s IH]; simpl; [reflexivity|].
  unfold is_comma at 1. destruct (Ascii.eqb c ","); simpl.
  - now rewrite IH.
  - destruct (split_comma s); simpl in *; [discriminate | exact IH].
Qed.

Lemma split_comma_no_comma (s tok : string) :
  In tok (split_comma s) -> count_chars is_comma tok = 0.
Proof.
  revert tok. induction s as [|c s IH]; simpl; intros tok.
  - intros [<-|[]]. reflexivity.
  - destruct (Ascii.eqb c ",") eqn:Hc.
    + intros [<-|H]; [reflexivity | auto].
    + destruct (split_comma s) as [|t ts]; simpl.
      * intros [<-|[]]. simpl. unfold is_comma. now rewrite Hc.
      * intros [<-|H].
        -- simpl. unfold is_comma at 1. rewrite Hc. apply IH. now left.
        -- apply IH. now right.
Qed.

(** [split(',')] and [join(',')] are inverse to each other. *)
Lemma split_comma_join (s : string) :
  String.concat "," (split_comma s) = s.
Proof.
  induction s as [|c s IH]; simpl; [reflexivity|].
  destruct (Ascii.eqb_spec c ","%char) as [->|Hc].
  - pose proof (split_comma_not_nil s) as Hne.
    destruct (split_comma s) as [|t ts]; [contradiction|].
    change (String.concat "," ("" :: t :: ts))
      with ("" ++ "," ++ String.concat "," (t :: ts))%string.
    now rewrite IH.
  - pose proof (split_comma_not_nil s) as Hne.
    destruct (split_comma s) as [|t ts]; [contradiction|].
    destruct ts as [|t' ts]; simpl in *; congruence.
Qed.

Lemma deletes_join (l l' : list string) :
  Forall2 deletes_white_space l l' ->
  deletes_white_space (String.concat "," l) (String.concat "," l').
Proof.
  intros H. induction H as [|s t l l' Hst Hl IH]; [constructor|].
  destruct Hl as [|s2 t2 l2 l2' H2 Hl2].
  - exact Hst.
  - change (deletes_white_space
              (s ++ "," ++ String.concat "," (s2 :: l2))
              (t ++ "," ++ String.concat "," (t2 :: l2'))).
    apply deletes_app; [exact Hst|].
    apply (deletes_app "," "," _ _ (deletes_refl ",") IH).
Qed.

Lemma Forall2_map_r {A B} (R : A -> B -> Prop) (f : A -> B) (l : list A) :
  (forall x, R x (f x)) -> Forall2 R l (map f l).
Proof. intros H. induction l; simpl; constructor; auto. Qed.

(** X1: the scraper returns one keyword more than the paragraph's text has
    commas, so never an empty sequence, and no keyword has a comma in it. *)
Theorem parseDependencies_count
    (cheerio_select : string -> string -> list string) (html : string) :
  List.length (parseDependencies cheerio_select html)
    = S (count_chars is_comma
           (selection_text (cheerio_select html sidebar_selector))) /\
  parseDependencies cheerio_select html <> [] /\
  (forall kw, In kw (parseDependencies cheerio_select html) ->
              count_chars is_comma kw = 0).
Proof.
  unfold parseDependencies.
  set (text := selection_text (cheerio_select html sidebar_selector)).
  split; [|split].
  - now rewrite length_map, split_comma_length.
  - intros H. apply map_eq_nil in H. now apply split_comma_not_nil in H.
  - intros kw Hin. apply in_map_iff in Hin as [tok [<- Htok]].
    pose proof (deletes_count is_comma _ _ (replace_all_deletes tok)) as Hle.
    rewrite (split_comma_no_comma _ _ Htok) in Hle. lia.
Qed.

(** X2: the scraper only deletes white space: each keyword is its token of
    the paragraph's text with white-space characters deleted, and the
    keywords joined by commas are the text with white-space characters
    deleted. *)
Theorem parseDependencies_deletes_white_space
    (cheerio_select : string -> string -> list string) (html : string) :
  let text := selection_text (cheerio_select html sidebar_selector) in
  Forall2 deletes_white_space
    (split_comma text) (parseDependencies cheerio_select html) /\
  deletes_white_space
    text (String.concat "," (parseDependencies cheerio_select html)).
Proof.
  intros text.
  assert (H : Forall2 deletes_white_space
                (split_comma text) (parseDependencies cheerio_select html))
    by (apply Forall2_map_r, replace_all_deletes).
  split; [exact H|].
  rewrite <- (split_comma_join text) at 1. now apply deletes_join.
Qed.

(** X3: a token of the paragraph's text that has two characters or more other
    than white space, all on one line, comes back trimmed, at the place of
    the token. *)
Theorem parseDependencies_trims_token
    (cheerio_select : string -> string -> list string) (html : string)
    (i : nat) (ws1 mid ws2 : string) (a b : ascii) :
  nth_error (split_comma (selection_text (cheerio_select html sidebar_selector))) i
    = Some (ws1 ++ String a (mid ++ String b ws2))%string ->
  all_chars white_space ws1 = true ->
  all_chars white_space ws2 = true ->
  non_space a = true -> non_space b = true ->
  all_chars dot mid = true ->
  nth_error (parseDependencies cheerio_select html) i
    = Some (String a (mid ++ String b ""))%string.
Proof.
  intros Htok Hws1 Hws2 Ha Hb Hmid. unfold parseDependencies.
  rewrite nth_error_map, Htok. simpl. f_equal.
  now apply replace_all_trims.
Qed.

Lemma parseDependencies_trims_token_witness :
  nth_error (parseDependencies (fun _ _ => ["orm,  nodejs "]) "<html>") 1
  = Some "nodejs".
Proof.
  apply (parseDependencies_trims_token (fun _ _ => ["orm,  nodejs "]) "<html>"
           1 "  " "odej" " " "n" "s"); reflexivity.
Defined.

(** X4: a token that has fewer than two characters other than white space
    comes back as it is, with the white space around it. *)
Theorem parseDependencies_keeps_short_token
    (cheerio_select : string -> string -> list string) (html : string)
    (i : nat) (tok : string) :
  nth_error (split_comma (selection_text (cheerio_select html sidebar_selector))) i
    = Some tok ->
  count_chars non_space tok <= 1 ->
  nth_error (parseDependencies cheerio_select html) i = Some tok.
Proof.
  intros Htok Hshort. unfold parseDependencies.
  rewrite nth_error_map, Htok. simpl. f_equal.
  now apply replace_all_untrimmed.
Qed.

Lemma parseDependencies_keeps_short_token_witness :
  nth_error (parseDependencies (fun _ _ => ["orm, q ,db"]) "<html>") 1
  = Some " q ".
Proof.
  apply (parseDependencies_keeps_short_token (fun _ _ => ["orm, q ,db"])
           "<html>" 1 " q "); [reflexivity | simpl; lia].
Defined.

(** ** The requests of the matcher *)

Lemma fetch_each_fetchNPM_B_log (responses : string -> promise string)
    (parse : string -> list string) (urls : list string) (net : network) :
  snd (fetch_each (fetchNPM_B responses parse) urls net) = net ++ urls.
Proof.
  revert net. induction urls as [|url urls IH]; intros net; simpl.
  - now rewrite app_nil_r.
  - specialize (IH (net ++ [url])).
    destruct (fetch_each (fetchNPM_B responses parse) urls (net ++ [url])).
    simpl in *. now rewrite IH, <- app_assoc.
Qed.

(** X5: once the manifest is read, variant B sends one request for the
    catalog, to the default URL, and then one for the page of each
    dependency, in the order of the list and with its repetitions,
    whatever becomes of the requests. *)
Theorem matchDependenciesB_requests
    (readFileSync : string -> result string)
    (JSON_parse_manifest : string -> result package_json)
    (JSON_parse_catalog : string -> result docker_json)
    (cheerio_select : string -> string -> list string)
    (responses : string -> promise string)
    (path : string) (deps : list string) (net : network) :
  dependencies readFileSync JSON_parse_manifest path = Ret deps ->
  snd (matchDependenciesB
         (packageParserB readFileSync JSON_parse_manifest JSON_parse_catalog
                         cheerio_select responses) path net)
    = net ++ docker_default_url :: map depURL deps.
Proof.
  intros Hdeps.
  unfold matchDependenciesB, packageParserB. cbn [this_dependencies
    this_depURL this_fetchNPM this_fetchDockers]. rewrite Hdeps.
  unfold fetchDockers_B, request. cbn [or_default].
  pose proof (fetch_each_fetchNPM_B_log responses
                (parseDependencies cheerio_select) (map depURL deps)
                (net ++ [docker_default_url])) as Hlog.
  destruct (fetch_each _ _ (net ++ [docker_default_url])) as [pns net2].
  simpl in *. now rewrite Hlog, <- app_assoc.
Qed.

Lemma matchDependenciesB_requests_witness :
  let rf := fun _ : string => Ret "{}" in
  let jp := fun _ : string =>
    Ret {| pj_dependencies := Some [("redis", "*"); ("express", "*")];
           pj_devDependencies := Some [("redis", "*")] |} in
  let jc := fun _ : string => Ret {| results := [redis] |} in
  let ch := fun _ _ : string => ["redis, cache"] in
  snd (matchDependenciesB (packageParserB rf jp jc ch failing_responses)
         "package.json" [])
    = [docker_default_url; depURL "redis"; depURL "express"; depURL "redis"].
Proof.
  intros rf jp jc ch.
  exact (matchDependenciesB_requests rf jp jc ch failing_responses
           "package.json" ["redis"; "express"; "redis"] [] eq_refl).
Defined.

(** ** The manifest reader: when it fails *)

(** X7: an error of [fs.readFileSync] or of [JSON.parse] on the manifest comes
    out of [dependencies] as it is, and out of [matchDependencies] of
    variant B as it is, not wrapped, with no request made. *)
Theorem manifest_error_propagates
    (readFileSync : string -> result string)
    (JSON_parse_manifest : string -> result package_json)
    (JSON_parse_catalog : string -> result docker_json)
    (cheerio_select : string -> string -> list string)
    (responses : string -> promise string)
    (path : string) (e : error) (net : network) :
  readFileSync path = Throw e \/
  (exists text, readFileSync path = Ret text /\
                JSON_parse_manifest text = Throw e) ->
  dependencies readFileSync JSON_parse_manifest path = Throw e /\
  matchDependenciesB
    (packageParserB readFileSync JSON_parse_manifest JSON_parse_catalog
                    cheerio_select responses) path net = (Throw e, net).
Proof.
  intros H.
  assert (Hdeps : dependencies readFileSync JSON_parse_manifest path = Throw e).
  { unfold dependencies. destruct H as [H|[text [Hr Hp]]].
    - now rewrite H.
    - rewrite Hr. simpl. now rewrite Hp. }
  split; [exact Hdeps|].
  unfold matchDependenciesB, packageParserB.
  cbn [this_dependencies]. now rewrite Hdeps.
Qed.

Lemma manifest_error_propagates_witness :
  let enoent := Error "ENOENT: no such file or directory, open 'package.json'" in
  let rf := fun _ : string => Throw enoent in
  let jp := fun _ : string => Ret package_test in
  let jc := fun _ : string => Ret {| results := [] |} in
  let ch := fun _ _ : string => @nil string in
  let resp := fun _ : string => (0, Ret "") in
  dependencies rf jp "package.json" = Throw enoent /\
  matchDependenciesB (packageParserB rf jp jc ch resp) "package.json" []
    = (Throw enoent, []).
Proof.
  intros enoent rf jp jc ch resp.
  apply (manifest_error_propagates rf jp jc ch resp "package.json" enoent []).
  left. reflexivity.
Defined.

(** X8: a name is returned as many times as the two mappings have it as a
    key: a package listed in both is returned twice. *)
Theorem dependencies_repetitions
    (readFileSync : string -> result string)
    (JSON_parse_manifest : string -> result package_json)
    (path text : string) (pj : package_json) (d dd : jsobj string) :
  readFileSync path = Ret text ->
  JSON_parse_manifest text = Ret pj ->
  pj_dependencies pj = Some d ->
  pj_devDependencies pj = Some dd ->
  exists names,
    dependencies readFileSync JSON_parse_manifest path = Ret names /\
    List.length names = List.length d + List.length dd /\
    forall k, count_occ string_dec names k
              = count_occ string_dec (own_keys d) k
                + count_occ string_dec (own_keys dd) k.
Proof.
  intros Hr Hp Hd Hdd. exists (Object_keys d ++ Object_keys dd).
  split; [|split].
  - unfold dependencies. rewrite Hr. simpl. rewrite Hp. simpl.
    now rewrite Hd, Hdd.
  - rewrite length_app. unfold Object_keys.
    rewrite !(Permutation_length (key_order_perm _)).
    unfold own_keys. now rewrite !length_map.
  - intros k. rewrite count_occ_app. unfold Object_keys.
    now rewrite !(proj1 (Permutation_count_occ string_dec _ _)
                         (key_order_perm _) k).
Qed.

Lemma dependencies_repetitions_witness :
  exists names,
    dependencies (fun _ => Ret "{}")
      (fun _ => Ret {| pj_dependencies := Some [("redis", "*"); ("2", "*")];
                       pj_devDependencies := Some [("redis", "^3")] |})
      "package.json" = Ret names /\
    List.length names = 3 /\
    count_occ string_dec names "redis" = 2.
Proof.
  destruct (dependencies_repetitions (fun _ => Ret "{}")
      (fun _ => Ret {| pj_dependencies := Some [("redis", "*"); ("2", "*")];
                       pj_devDependencies := Some [("redis", "^3")] |})
      "package.json" "{}" _ _ _ eq_refl eq_refl eq_refl eq_refl)
    as [names [Heq [Hlen Hcount]]].
  exists names. split; [exact Heq|]. split; [exact Hlen|].
  rewrite Hcount. reflexivity.
Defined.

(** ** The matcher: when it resolves *)

Lemma match_keywords_thrown (dockers : jsobj string) (kws : list string)
    (e : error) :
  fold_left (fun r kw => depList <- r ;; match_keyword dockers depList kw)
            kws (Throw e) = Throw e.
Proof. induction kws as [|kw kws IH]; simpl; [reflexivity | exact IH]. Qed.

Lemma match_keywords_shadowed (dockers : jsobj string) (kws : list string) :
  has_own dockers "hasOwnProperty" = true -> kws <> [] ->
  match_keywords dockers kws
  = Throw (TypeError "hasOwnProperty is not a function").
Proof.
  intros Hshadow Hne. destruct kws as [|kw kws]; [contradiction|].
  unfold match_keywords. cbn [fold_left].
  match goal with
  | |- fold_left _ _ ?r = _ =>
      assert (Hr : r = Throw (TypeError "hasOwnProperty is not a function"))
  end.
  { cbn [bind]. unfold match_keyword, hasOwnProperty. now rewrite Hshadow. }
  rewrite Hr. apply match_keywords_thrown.
Qed.

Lemma match_keywords_none (dockers : jsobj string) :
  match_keywords dockers [] = Ret [].
Proof. reflexivity. Qed.

Lemma no_rejection_values {A} (ps : list (promise A)) :
  first_rejection (map status ps) = None ->
  exists l, all_values ps = Ret l.
Proof.
  induction ps as [|[t [a|e]] ps IH]; simpl.
  - eauto.
  - intros H. destruct (IH H) as [l ->]. simpl. eauto.
  - destruct (first_rejection (map status ps)) as [[t' e']|];
      [destruct (t' <? t)%nat|]; discriminate.
Qed.

Lemma Promise_all_cons_fulfilled {A B} (p : promise A)
    (ps : list (promise B)) (a : A) (l : list B) :
  await (Promise_all_cons p ps) = Ret (a, l) ->
  await p = Ret a /\ all_values ps = Ret l.
Proof.
  unfold Promise_all_cons. destruct p as [t [a'|e]]; simpl.
  - destruct (first_rejection (map status ps)) as [[t' e']|] eqn:Hfr;
      simpl; [discriminate|].
    destruct (all_values ps) as [l'|e]; simpl; [|discriminate].
    intros H. injection H as <- <-. auto.
  - destruct (first_rejection (map status ps)) as [[t' e']|];
      [destruct (t' <? t)%nat|]; discriminate.
Qed.

(** X9: variant B resolves exactly when the catalog and every page are
    fetched and, unless there is no keyword at all, the catalog has no
    entry named ["hasOwnProperty"]. *)
Theorem matchDependenciesB_resolves_iff (this : parser) (path : string)
    (net net1 net2 : network) (deps : list string)
    (pd : promise (jsobj string)) (pns : list (promise (list string))) :
  this_dependencies this path = Ret deps ->
  this_fetchDockers this None net = (pd, net1) ->
  fetch_each (this_fetchNPM this) (map (this_depURL this) deps) net1
    = (pns, net2) ->
  (exists names,
     matchDependenciesB this path net = (Ret (Arr names), net2))
  <->
  (exists dockers kss,
     await pd = Ret dockers /\ all_values pns = Ret kss /\
     (has_own dockers "hasOwnProperty" = false \/ concat kss = [])).
Proof.
  intros Hdeps Hdock Hfetch. unfold matchDependenciesB.
  rewrite Hdeps, Hdock, Hfetch. split.
  - intros [names H].
    destruct (await (Promise_all_cons pd pns)) as [[dockers kss]|e] eqn:Hall;
      [|discriminate].
    apply Promise_all_cons_fulfilled in Hall as [Hpd Hkss].
    exists dockers, kss. split; [exact Hpd|]. split; [exact Hkss|].
    simpl in H. destruct (has_own dockers "hasOwnProperty") eqn:Hshadow;
      [|now left].
    right. rewrite <- flatten_concat.
    destruct (flatten kss) as [|kw kws] eqn:Hflat; [reflexivity|].
    rewrite (match_keywords_shadowed dockers (kw :: kws) Hshadow) in H
      by discriminate.
    discriminate.
  - intros [dockers [kss [Hpd [Hkss Hok]]]].
    rewrite (Promise_all_cons_values _ _ _ _ Hpd Hkss). simpl.
    destruct Hok as [Hshadow|Hnone].
    + destruct (match_keywords_keys dockers (flatten kss) Hshadow)
        as [depList [-> _]]. simpl. eauto.
    + rewrite flatten_concat, Hnone. simpl. eauto.
Qed.

Lemma matchDependenciesB_resolves_iff_witness :
  exists names,
    matchDependenciesB two_pages_parser "package.json" []
    = (Ret (Arr names), []).
Proof.
  apply (proj2 (matchDependenciesB_resolves_iff two_pages_parser
           "package.json" [] [] [] ["sequelize"; "connect-redis"]
           (Promise_resolve targetDocker)
           [Promise_resolve ["orm"; "postgres"; "mysql"; "postgres"];
            Promise_resolve ["redis"; "session"; "mysql"]]
           eq_refl eq_refl eq_refl)).
  exists targetDocker,
    [["orm"; "postgres"; "mysql"; "postgres"]; ["redis"; "session"; "mysql"]].
  repeat split. left. reflexivity.
Defined.

(** X10: when the catalog has an entry named ["hasOwnProperty"] and the pages
    give at least one keyword, variant B is rejected with the TypeError of
    the call [dockerKeywords.hasOwnProperty(kw)], though every fetch
    succeeded. *)
Theorem matchDependenciesB_shadowed_hasOwnProperty (this : parser)
    (path : string) (net net1 net2 : network) (deps : list string)
    (pd : promise (jsobj string)) (pns : list (promise (list string)))
    (dockers : jsobj string) (kss : list (list string)) :
  this_dependencies this path = Ret deps ->
  this_fetchDockers this None net = (pd, net1) ->
  fetch_each (this_fetchNPM this) (map (this_depURL this) deps) net1
    = (pns, net2) ->
  await pd = Ret dockers ->
  all_values pns = Ret kss ->
  has_own dockers "hasOwnProperty" = true ->
  concat kss <> [] ->
  matchDependenciesB this path net
  = (Throw (TypeError "hasOwnProperty is not a function"), net2).
Proof.
  intros Hdeps Hdock Hfetch Hpd Hkss Hshadow Hne.
  unfold matchDependenciesB. rewrite Hdeps, Hdock, Hfetch.
  rewrite (Promise_all_cons_values _ _ _ _ Hpd Hkss). simpl.
  rewrite match_keywords_shadowed; [reflexivity | exact Hshadow |].
  now rewrite flatten_concat.
Qed.

(** X11: when the pages give no keyword at all, as when the manifest lists no
    dependency, variant B resolves to the empty array, whatever the
    catalog holds. *)
Theorem matchDependenciesB_no_keywords (this : parser)
    (path : string) (net net1 net2 : network) (deps : list string)
    (pd : promise (jsobj string)) (pns : list (promise (list string)))
    (dockers : jsobj string) (kss : list (list string)) :
  this_dependencies this path = Ret deps ->
  this_fetchDockers this None net = (pd, net1) ->
  fetch_each (this_fetchNPM this) (map (this_depURL this) deps) net1
    = (pns, net2) ->
  await pd = Ret dockers ->
  all_values pns = Ret kss ->
  concat kss = [] ->
  matchDependenciesB this path net = (Ret (Arr []), net2).
Proof.
  intros Hdeps Hdock Hfetch Hpd Hkss Hnone.
  unfold matchDependenciesB. rewrite Hdeps, Hdock, Hfetch.
  rewrite (Promise_all_cons_values _ _ _ _ Hpd Hkss). simpl.
  now rewrite flatten_concat, Hnone.
Qed.

Lemma matchDependenciesB_shadowed_hasOwnProperty_witness :
  matchDependenciesB shadowing_parser "package.json" []
  = (Throw (TypeError "hasOwnProperty is not a function"), []).
Proof.
  apply (matchDependenciesB_shadowed_hasOwnProperty shadowing_parser
           "package.json" [] [] [] ["express"]
           (Promise_resolve
              [("hasOwnProperty", "Not an image."); ("redis", "Redis.")])
           [Promise_resolve ["web"; "redis"]]
           [("hasOwnProperty", "Not an image."); ("redis", "Redis.")]
           [["web"; "redis"]]);
    try reflexivity.
  discriminate.
Defined.

Lemma matchDependenciesB_no_keywords_witness :
  matchDependenciesB no_dependency_parser "package.json" []
  = (Ret (Arr []), []).
Proof.
  apply (matchDependenciesB_no_keywords no_dependency_parser
           "package.json" [] [] [] []
           (Promise_resolve
              [("hasOwnProperty", "Not an image."); ("redis", "Redis.")])
           [] [("hasOwnProperty", "Not an image."); ("redis", "Redis.")] []);
    reflexivity.
Defined.

(** ** The catalog parser on distinct names *)

Lemma upsert_new {V} (o : jsobj V) (k : string) (v : V) :
  mem k (own_keys o) = false -> upsert o k v = o ++ [(k, v)].
Proof.
  induction o as [|[k' v'] o IH]; simpl; [reflexivity|].
  destruct (String.eqb k k'); [discriminate|].
  intros H. now rewrite IH.
Qed.

Lemma add_entries_distinct (entries : list docker_entry) (o : jsobj string) :
  NoDup (map name entries) ->
  ~ In "__proto__" (map name entries) ->
  (forall k, In k (map name entries) -> ~ In k (own_keys o)) ->
  add_entries entries o
  = o ++ map (fun el => (name el, description el)) entries.
Proof.
  revert o. induction entries as [|el entries IH]; intros o Hnd Hproto Hfresh;
    simpl.
  - now rewrite app_nil_r.
  - inversion Hnd as [|? ? Hnotin Hnd']; subst. simpl in Hproto, Hfresh.
    unfold add_entries in *. simpl.
    unfold obj_set at 2.
    destruct (String.eqb_spec (name el) "__proto__") as [Heq|_];
      [exfalso; apply Hproto; left; congruence|].
    rewrite upsert_new
      by (apply mem_false_In, Hfresh; now left).
    rewrite IH; [now rewrite <- app_assoc | exact Hnd' | tauto |].
    intros k Hk. unfold own_keys. rewrite map_app, in_app_iff. simpl.
    intros [H|[<-|[]]]; [apply (Hfresh k); auto | contradiction].
Qed.

Lemma get_entries (entries : list docker_entry) (el : docker_entry) :
  NoDup (map name entries) -> In el entries ->
  get (map (fun el => (name el, description el)) entries) (name el)
  = Some (description el).
Proof.
  induction entries as [|el' entries IH]; simpl; intros Hnd Hin;
    [contradiction|].
  inversion Hnd as [|? ? Hnotin Hnd']; subst.
  destruct Hin as [->|Hin]; [now rewrite String.eqb_refl|].
  destruct (String.eqb_spec (name el) (name el')) as [Heq|_]; [|auto].
  exfalso. apply Hnotin. rewrite <- Heq. now apply in_map.
Qed.

Lemma get_In_names (entries : list docker_entry) (k : string) :
  get (map (fun el => (name el, description el)) entries) k <> None ->
  In k (map name entries).
Proof.
  induction entries as [|el entries IH]; simpl; [congruence|].
  destruct (String.eqb_spec k (name el)) as [Heq|_]; [now left|].
  intros H. right. now apply IH.
Qed.

(** X13: when the names of the catalog are distinct and none is ["__proto__"],
    the object that [parseDockers] returns has one property for each
    entry, the name with the description of the entry, and no other;
    [Object.keys] lists the names that are array indices first, in
    ascending order, and then the others in the order of the entries,
    which is the order of the entries when no name is an array index. *)
Theorem parseDockers_distinct
    (JSON_parse_catalog : string -> result docker_json)
    (dockerJSON : string) (dj : docker_json) :
  JSON_parse_catalog dockerJSON = Ret dj ->
  NoDup (map name (results dj)) ->
  ~ In "__proto__" (map name (results dj)) ->
  exists dockers,
    parseDockers JSON_parse_catalog dockerJSON = Ret dockers /\
    (forall el, In el (results dj) ->
                get dockers (name el) = Some (description el)) /\
    (forall k, get dockers k <> None -> In k (map name (results dj))) /\
    List.length (Object_keys dockers) = List.length (results dj) /\
    Object_keys dockers = key_order (map name (results dj)) /\
    (forallb (fun k => negb (is_index k)) (map name (results dj)) = true ->
     Object_keys dockers = map name (results dj)).
Proof.
  intros Hparse Hnd Hproto.
  exists (map (fun el => (name el, description el)) (results dj)).
  assert (Hkeys : own_keys (map (fun el => (name el, description el))
                              (results dj)) = map name (results dj))
    by (unfold own_keys; rewrite map_map; reflexivity).
  split; [|split; [|split; [|split; [|split]]]].
  - unfold parseDockers. rewrite Hparse. simpl. f_equal.
    apply (add_entries_distinct (results dj) [] Hnd Hproto).
    intros k _ [].
  - intros el Hin. now apply get_entries.
  - intros k. apply get_In_names.
  - unfold Object_keys. rewrite Hkeys.
    rewrite (Permutation_length (key_order_perm _)). apply length_map.
  - unfold Object_keys. now rewrite Hkeys.
  - intros Hno. unfold Object_keys. rewrite Hkeys.
    now apply key_order_no_index.
Qed.

Lemma parseDockers_distinct_witness :
  exists dockers,
    parseDockers
      (fun _ => Ret {| results := [redis; {| name := "10"; description := "Ten." |};
                                   {| name := "2"; description := "Two." |}] |})
      "{}" = Ret dockers /\
    get dockers "2" = Some "Two." /\
    Object_keys dockers = ["2"; "10"; "redis"].
Proof.
  destruct (parseDockers_distinct
              (fun _ =>
                 Ret {| results := [redis;
                                    {| name := "10"; description := "Ten." |};
                                    {| name := "2"; description := "Two." |}] |})
              "{}" _ eq_refl) as [dockers [Heq [Hget [_ [_ [Hkeys _]]]]]].
  - repeat constructor; simpl; intuition discriminate.
  - simpl. intuition discriminate.
  - exists dockers. split; [exact Heq|]. split.
    + apply (Hget {| name := "2"; description := "Two." |}). simpl. auto.
    + rewrite Hkeys. reflexivity.
Defined.

(** ** The match looks at the names of the catalog only *)

Lemma match_keywords_same_names (d1 d2 : jsobj string) (kws : list string) :
  (forall k, has_own d1 k = has_own d2 k) ->
  match_keywords d1 kws = match_keywords d2 kws.
Proof.
  intros Hsame. unfold match_keywords.
  assert (Hfold : forall r : result (jsobj bool),
    fold_left (fun acc kw => depList <- acc ;; match_keyword d1 depList kw)
              kws r
    = fold_left (fun acc kw => depList <- acc ;; match_keyword d2 depList kw)
                kws r).
  { induction kws as [|kw kws IH]; intros r; cbn [fold_left]; [reflexivity|].
    rewrite IH. f_equal. destruct r as [depList|e]; cbn [bind]; [|reflexivity].
    unfold match_keyword, hasOwnProperty. now rewrite !Hsame. }
  apply Hfold.
Qed.

(** X14: two catalogs with the same names give the same match: the
    descriptions, the order of the entries and the time the catalog takes
    to arrive play no part in the outcome of variant B. *)
Theorem matchDependenciesB_names_only
    (deps : result (list string)) (keywords : string -> promise (list string))
    (t1 t2 : nat) (d1 d2 : jsobj string) (path : string) (net : network) :
  (forall k, In k (own_keys d1) <-> In k (own_keys d2)) ->
  matchDependenciesB (stub_parser deps (t1, Ret d1) keywords) path net
  = matchDependenciesB (stub_parser deps (t2, Ret d2) keywords) path net.
Proof.
  intros Hnames.
  assert (Hsame : forall k, has_own d1 k = has_own d2 k).
  { intros k. unfold has_own. specialize (Hnames k).
    rewrite <- !mem_In in Hnames.
    destruct (mem k (own_keys d1)), (mem k (own_keys d2)); try reflexivity.
    - symmetry. now apply Hnames.
    - now apply Hnames. }
  unfold matchDependenciesB, stub_parser.
  cbn [this_dependencies this_depURL this_fetchNPM this_fetchDockers].
  destruct deps as [names|e]; [|reflexivity].
  destruct (fetch_each _ _ net) as [pns net2].
  unfold Promise_all_cons. cbn [status first_rejection].
  destruct (first_rejection (map status pns)) as [[t e]|]; [reflexivity|].
  destruct (all_values pns) as [kss|e]; cbn [await snd fst bind];
    [|reflexivity].
  now rewrite (match_keywords_same_names d1 d2 _ Hsame).
Qed.

Lemma matchDependenciesB_names_only_witness :
  matchDependenciesB
    (stub_parser (Ret ["connect-redis"])
       (3, Ret [("redis", "Redis."); ("nginx", "Nginx.")])
       (fun _ => Promise_resolve ["redis"; "session"])) "package.json" []
  = matchDependenciesB
      (stub_parser (Ret ["connect-redis"])
         (7, Ret [("nginx", "Official build of Nginx."); ("redis", "A store.")])
         (fun _ => Promise_resolve ["redis"; "session"])) "package.json" [].
Proof.
  apply (matchDependenciesB_names_only (Ret ["connect-redis"])
           (fun _ => Promise_resolve ["redis"; "session"]) 3 7
           [("redis", "Redis."); ("nginx", "Nginx.")]
           [("nginx", "Official build of Nginx."); ("redis", "A store.")]).
  intros k. simpl. tauto.
Defined.

(** ** The whole pipeline of variant B *)

Lemma fetch_each_fetchNPM_B_promises (responses : string -> promise string)
    (parse : string -> list string) (urls : list string) (net : network) :
  fst (fetch_each (fetchNPM_B responses parse) urls net)
  = map (fun url => fst (fetchNPM_B responses parse url [])) urls.
Proof.
  revert net. induction urls as [|url urls IH]; intros net; simpl;
    [reflexivity|].
  specialize (IH (net ++ [url])).
  destruct (fetch_each (fetchNPM_B responses parse) urls (net ++ [url])).
  simpl in *. now rewrite IH.
Qed.

Lemma all_values_fetched (responses : string -> promise string)
    (parse : string -> list string) (pages : string -> string)
    (deps : list string) :
  (forall d, In d deps -> await (responses (depURL d)) = Ret (pages d)) ->
  all_values (map (fun url => fst (fetchNPM_B responses parse url []))
                  (map depURL deps))
  = Ret (map (fun d => parse (pages d)) deps).
Proof.
  induction deps as [|d deps IH]; intros Hpages; [reflexivity|].
  cbn [map all_values].
  rewrite IH by (intros d' Hd'; apply Hpages; now right).
  pose proof (Hpages d (or_introl eq_refl)) as Hd.
  unfold fetchNPM_B, request, await in *. cbn [fst snd].
  now rewrite Hd.
Qed.

(** X15: variant B from end to end: when the manifest is read, the catalog is
    fetched and parses, every page is fetched, and no entry of the catalog
    is named ["hasOwnProperty"], the call resolves to an array without
    repetition, and a name is in it exactly when it is a keyword scraped
    from the page of some dependency and the name of an entry of the
    catalog, other than ["__proto__"]. *)
Theorem matchDependenciesB_pipeline
    (readFileSync : string -> result string)
    (JSON_parse_manifest : string -> result package_json)
    (JSON_parse_catalog : string -> result docker_json)
    (cheerio_select : string -> string -> list string)
    (responses : string -> promise string)
    (path body : string) (deps : list string) (dj : docker_json)
    (pages : string -> string) (net : network) :
  dependencies readFileSync JSON_parse_manifest path = Ret deps ->
  await (responses docker_default_url) = Ret body ->
  JSON_parse_catalog body = Ret dj ->
  ~ In "hasOwnProperty" (map name (results dj)) ->
  (forall d, In d deps -> await (responses (depURL d)) = Ret (pages d)) ->
  exists names,
    fst (matchDependenciesB
           (packageParserB readFileSync JSON_parse_manifest JSON_parse_catalog
                           cheerio_select responses) path net)
      = Ret (Arr names) /\
    NoDup names /\
    forall k,
      In k names <->
      (exists d, In d deps /\
                 In k (parseDependencies cheerio_select (pages d))) /\
      In k (map name (results dj)) /\ k <> "__proto__".
Proof.
  intros Hdeps Hcat Hparse Hshadow Hpages.
  set (dockers := add_entries (results dj) []).
  set (kss := map (fun d => parseDependencies cheerio_select (pages d)) deps).
  assert (Hkeys : forall k, In k (own_keys dockers) <->
                            In k (map name (results dj)) /\ k <> "__proto__").
  { intros k. unfold dockers. rewrite add_entries_keys. simpl. tauto. }
  assert (Hno : has_own dockers "hasOwnProperty" = false).
  { apply mem_false_In. rewrite Hkeys. tauto. }
  destruct (match_keywords_keys dockers (flatten kss) Hno)
    as [depList [Hmatch Hown]].
  exists (Object_keys depList). split; [|split].
  - unfold matchDependenciesB, packageParserB.
    cbn [this_dependencies this_depURL this_fetchNPM this_fetchDockers].
    rewrite Hdeps. unfold fetchDockers_B, request. cbn [or_default].
    pose proof (fetch_each_fetchNPM_B_promises responses
                  (parseDependencies cheerio_select) (map depURL deps)
                  (net ++ [docker_default_url])) as Hpns.
    destruct (fetch_each _ _ (net ++ [docker_default_url])) as [pns net2].
    simpl in Hpns. subst pns. cbn [fst].
    erewrite Promise_all_cons_values;
      [ | unfold await in Hcat |- *; cbn [snd]; rewrite Hcat; cbn [bind];
          unfold parseDockers; rewrite Hparse; reflexivity
        | apply all_values_fetched; exact Hpages ].
    cbn [bind fst snd]. fold kss.
    unfold dockers, add_entries in Hmatch. now rewrite Hmatch.
  - unfold Object_keys. rewrite Hown.
    apply key_order_NoDup, dedup_seen_NoDup.
  - intros k. unfold Object_keys. rewrite Hown, key_order_In.
    unfold dedup. rewrite dedup_seen_In, filter_In, kept_iff, Hkeys.
    rewrite flatten_concat. unfold kss. rewrite in_concat.
    split.
    + intros [[[l [Hl Hk]] [[H1 H2] _]] _].
      apply in_map_iff in Hl as [d [<- Hd]]. eauto 6.
    + intros [[d [Hd Hk]] [H1 H2]]. split; [|simpl; tauto].
      split; [|tauto]. eexists. split; [|exact Hk].
      apply in_map_iff. eauto.
Qed.

Lemma matchDependenciesB_pipeline_witness :
  exists names,
    fst (matchDependenciesB
           (packageParserB (fun _ => Ret "{}")
              (fun _ => Ret {| pj_dependencies := Some [("connect-redis", "*")];
                               pj_devDependencies := Some [] |})
              (fun _ => Ret {| results := [nginx; redis] |})
              (fun _ _ => ["session, redis , store"])
              (fun _ => (2, Ret "<html>")))
           "package.json" [])
      = Ret (Arr names) /\
    NoDup names /\ In "redis" names.
Proof.
  destruct (matchDependenciesB_pipeline (fun _ => Ret "{}")
              (fun _ => Ret {| pj_dependencies := Some [("connect-redis", "*")];
                               pj_devDependencies := Some [] |})
              (fun _ => Ret {| results := [nginx; redis] |})
              (fun _ _ => ["session, redis , store"])
              (fun _ => (2, Ret "<html>"))
              "package.json" "<html>" ["connect-redis"]
              {| results := [nginx; redis] |} (fun _ => "<html>") [])
    as [names [Heq [Hnd Hin]]].
  - reflexivity.
  - reflexivity.
  - reflexivity.
  - simpl. intuition discriminate.
  - intros d _. reflexivity.
  - exists names. split; [exact Heq|]. split; [exact Hnd|].
    apply Hin. split; [|split].
    + exists "connect-redis". split; [now left|]. vm_compute. tauto.
    + simpl. tauto.
    + discriminate.
Defined.

(** ** The manifest reader on any JSON value *)

(** On a manifest in which each of the two properties is absent or a
    mapping, [dependencies_any] is [dependencies]. *)
Lemma dependencies_any_typed
    (readFileSync : string -> result string)
    (JSON_parse_manifest : string -> result package_json) (path : string) :
  dependencies_any readFileSync
    (fun text => pj <- JSON_parse_manifest text ;; Ret (json_of_manifest pj))
    path
  = dependencies readFileSync JSON_parse_manifest path.
Proof.
  unfold dependencies_any, dependencies.
  destruct (readFileSync path) as [text|e]; [|reflexivity]. simpl.
  destruct (JSON_parse_manifest text) as [[d dd]|e]; [|reflexivity]. simpl.
  assert (Hkeys : forall o : jsobj string,
            Object_keys (map (fun kv => (fst kv, JString (snd kv))) o)
            = Object_keys o).
  { intros o. unfold Object_keys, own_keys. now rewrite map_map. }
  destruct d as [d|], dd as [dd|]; simpl; rewrite ?Hkeys; reflexivity.
Qed.

(** X6: [dependencies] returns a list exactly when the file is read, its
    text parses to an object, and the object has the properties
    [dependencies] and [devDependencies], neither of them [null]; a
    boolean, a number, a string or an array in the place of a mapping does
    not make it throw. *)
Theorem dependencies_any_succeeds_iff
    (readFileSync : string -> result string)
    (JSON_parse : string -> result json) (path : string) :
  (exists names, dependencies_any readFileSync JSON_parse path = Ret names)
  <->
  (exists text members d dd,
     readFileSync path = Ret text /\
     JSON_parse text = Ret (JObject members) /\
     get members "dependencies" = Some d /\ d <> JNull /\
     get members "devDependencies" = Some dd /\ dd <> JNull).
Proof.
  unfold dependencies_any. split.
  - intros [names H].
    destruct (readFileSync path) as [text|e]; [|discriminate]. simpl in H.
    destruct (JSON_parse text) as [pj|e] eqn:Hp; [|discriminate].
    simpl in H.
    destruct pj as [ |b|n|s|items|members]; simpl in H; try discriminate.
    destruct (get members "dependencies") as [d|] eqn:Hd;
      [|discriminate].
    destruct (get members "devDependencies") as [dd|] eqn:Hdd.
    + exists text, members, d, dd.
      repeat split; try assumption; intros ->.
      * discriminate.
      * destruct d; discriminate.
    + destruct d; discriminate.
  - intros [text [members [d [dd [Hr [Hp [Hd [Hnd [Hdd Hndd]]]]]]]]].
    rewrite Hr. simpl. rewrite Hp. simpl. rewrite Hd, Hdd.
    destruct d; try contradiction; destruct dd; try contradiction;
      simpl; eauto.
Qed.

Lemma dependencies_any_succeeds_iff_witness :
  dependencies_any (fun _ => Ret "{}")
    (fun _ => Ret (JObject [("dependencies", JNumber "5");
                            ("devDependencies", JString "ab")]))
    "package.json"
  = Ret ["0"; "1"].
Proof.
  destruct (proj2 (dependencies_any_succeeds_iff (fun _ => Ret "{}")
      (fun _ => Ret (JObject [("dependencies", JNumber "5");
                              ("devDependencies", JString "ab")]))
      "package.json")) as [names Heq].
  - exists "{}", [("dependencies", JNumber "5");
                  ("devDependencies", JString "ab")],
      (JNumber "5"), (JString "ab").
    repeat split; discriminate.
  - rewrite Heq. vm_compute in Heq. congruence.
Defined.
